(** * PageRank: a shallow embedding of [pagerank.py]

    The three core operations of the program, [transition_model],
    [sample_pagerank] and [iterate_pagerank], are embedded as Rocq
    functions and their specification is checked against them.

    Modelling choices.
    - A Python [dict] with string keys is a [gmap string _]; the corpus is
      a [gmap string (gset string)] (page name to the set of pages it
      links to).  A [for key in d] loop runs over [keys d], the key list
      of the map.
    - Python numbers ([int] counters and [float]s) are exact rationals
      [Q]; arithmetic is compared with [==] ([Qeq]).
    - Exceptions are explicit: every operation that can raise returns a
      [result], and the code is written in the error monad.
    - The pseudo-random generator is an input: [sample_pagerank] receives
      the raw draws that [random.choice] and [random.choices] consume.
    - The [while] loop of [iterate_pagerank] is bounded by a fuel
      argument; [None] means that the fuel ran out. *)

From Stdlib Require Import QArith Qabs Lqa ZArith Lia.
From stdpp Require Import base option list strings gmap fin_maps.

Local Open Scope Q_scope.

(** ** The Python run time the program relies on *)

Inductive exn : Set :=
  | KeyError
  | IndexError
  | ZeroDivisionError
  | ValueError.

Inductive result (A : Type) : Type :=
  | Ok (a : A)
  | Raise (e : exn).

Arguments Ok {A} a.
Arguments Raise {A} e.

Definition bind {A B : Type} (m : result A) (k : A → result B) : result B :=
  match m with
  | Ok a => k a
  | Raise e => Raise e
  end.

Notation "x <- m ;; k" := (bind m (λ x, k))
  (at level 100, m at next level, right associativity,
   format "'[v' x  <-  m  ;;  '/' k ']'").

(** [for x in l: s = body(s, x)], stopping at the first exception. *)
Fixpoint for_each {A S : Type} (l : list A) (body : S → A → result S) (s : S)
  : result S :=
  match l with
  | [] => Ok s
  | x :: l' => s' <- body s x ;; for_each l' body s'
  end.

(** [d[k]]: raises [KeyError] when [k] is not a key. *)
Definition getitem {V : Type} (d : gmap string V) (k : string) : result V :=
  match d !! k with
  | Some v => Ok v
  | None => Raise KeyError
  end.

(** The keys of a dict, in the order a [for] loop visits them. *)
Definition keys {V : Type} (d : gmap string V) : list string :=
  (map_to_list d).*1.

(** [len(d)] of a dict and [len(s)] of a set, as numbers. *)
Definition len {V : Type} (d : gmap string V) : Q :=
  inject_Z (Z.of_nat (size d)).

Definition len_set (s : gset string) : Q :=
  inject_Z (Z.of_nat (size s)).

(** [x / y]: true division, raising [ZeroDivisionError] on a zero divisor. *)
Definition truediv (x y : Q) : result Q :=
  if Qeq_bool y 0 then Raise ZeroDivisionError else Ok (x / y).

(** [x < y] as a test. *)
Definition Qlt_bool (x y : Q) : bool := negb (Qle_bool y x).

(** ** [transition_model] *)

Definition transition_model (corpus : gmap string (gset string))
    (page : string) (damping_factor : Q) : result (gmap string Q) :=
  links <- getitem corpus page ;;
  if (size links =? 0)%nat then
    for_each (keys corpus)
      (λ output key,
         v <- truediv 1 (len corpus) ;;
         Ok (<[key := v]> output))
      ∅
  else
    output <- for_each (keys corpus)
      (λ output key,
         v <- truediv (1 - damping_factor) (len corpus) ;;
         Ok (<[key := v]> output))
      ∅ ;;
    prob <- truediv damping_factor (len_set links) ;;
    for_each (elements links)
      (λ output pageLink,
         v <- getitem output pageLink ;;
         Ok (<[pageLink := v + prob]> output))
      output.

(** ** The [random] module

    The generator's raw outputs are arguments: [r] is the integer that
    [choice] draws and reduces below [len(seq)], [u] is the value of
    [random()] that [choices] scales by the total weight. *)

(** [random.choice(seq)] is [seq[_randbelow(len(seq))]]; an empty
    sequence raises [IndexError]. *)
Definition random_choice {A : Type} (r : nat) (seq : list A) : result A :=
  match seq !! (r mod length seq)%nat with
  | Some x => Ok x
  | None => Raise IndexError
  end.

(** [itertools.accumulate(weights)]: the running totals. *)
Fixpoint running_totals (total : Q) (ws : list Q) : list Q :=
  match ws with
  | [] => []
  | w :: ws' => (total + w) :: running_totals (total + w) ws'
  end.

Definition accumulate (ws : list Q) : list Q :=
  match ws with
  | [] => []
  | w :: ws' => w :: running_totals w ws'
  end.

(** [bisect.bisect_right(a, x, lo, hi)]: binary search; each round halves
    [hi - lo], so [hi - lo] rounds (the fuel given below) are enough. *)
Fixpoint bisect_loop (rounds : nat) (a : list Q) (x : Q) (lo hi : nat) : nat :=
  match rounds with
  | O => lo
  | S rounds' =>
      if (lo <? hi)%nat then
        let mid := ((lo + hi) / 2)%nat in
        if Qlt_bool x (default 0 (a !! mid))
        then bisect_loop rounds' a x lo mid
        else bisect_loop rounds' a x (mid + 1)%nat hi
      else lo
  end.

Definition bisect (a : list Q) (x : Q) (lo hi : nat) : nat :=
  bisect_loop (hi - lo)%nat a x lo hi.

(** [random.choices(population, weights)[0]] *)
Definition random_choices (u : Q) (population : list string)
    (weights : list Q) : result string :=
  let n := length population in
  let cum_weights := accumulate weights in
  if negb (length cum_weights =? n)%nat then Raise ValueError else
  match last cum_weights with
  | None => Raise IndexError
  | Some total =>
      if Qle_bool total 0 then Raise ValueError else
      let hi := (n - 1)%nat in
      match population !! bisect cum_weights (u * total) 0 hi with
      | Some x => Ok x
      | None => Raise IndexError
      end
  end.

(** [range(start, stop)] *)
Definition range (start stop : Z) : list Z :=
  (λ i : nat, (start + Z.of_nat i)%Z) <$> seq 0 (Z.to_nat (stop - start)).

(** ** [sample_pagerank] *)

(** The body of [for _ in range(1, n)], on the pair of the loop's two
    variables [nextSample] and [output]; [u] is the draw it consumes. *)
Definition sample_step (corpus : gmap string (gset string))
    (damping_factor : Q) (u : Q) (st : string * gmap string Q)
  : result (string * gmap string Q) :=
  let nextSample := st.1 in
  let output := st.2 in
  c <- getitem output nextSample ;;
  let output := <[nextSample := c + 1]> output in
  dist <- transition_model corpus nextSample damping_factor ;;
  pw <- for_each (keys dist)
    (λ (pw : list string * list Q) key,
       w <- getitem dist key ;;
       Ok (pw.1 ++ [key], pw.2 ++ [w]))
    ([], []) ;;
  nextSample <- random_choices u pw.1 pw.2 ;;
  Ok (nextSample, output).

(** [r] is the draw of [random.choice], [us i] the draw of the
    [random.choices] call in the iteration whose loop variable is [i]. *)
Definition sample_pagerank (corpus : gmap string (gset string))
    (damping_factor : Q) (n : Z) (r : nat) (us : Z → Q)
  : result (gmap string Q) :=
  firstSample <- random_choice r (keys corpus) ;;
  let nextSample := firstSample in
  output <- for_each (keys corpus)
    (λ output key, Ok (<[key := 0]> output)) ∅ ;;
  st <- for_each (range 1 n)
    (λ st i, sample_step corpus damping_factor (us i) st)
    (nextSample, output) ;;
  let output := st.2 in
  for_each (keys output)
    (λ output key,
       c <- getitem output key ;;
       v <- truediv c (inject_Z n) ;;
       Ok (<[key := v]> output))
    output.

(** ** [iterate_pagerank] *)

(** The body of [for i in corpus], updating [summation]. *)
Definition summation_step (corpus : gmap string (gset string))
    (currentRank : gmap string Q) (N : Q) (key : string)
    (summation : Q) (i : string) : result Q :=
  links <- getitem corpus i ;;
  if bool_decide (key ∈ links) then
    ci <- getitem currentRank i ;;
    q <- truediv ci (len_set links) ;;
    Ok (summation + q)
  else if (size links =? 0)%nat then
    ci <- getitem currentRank i ;;
    q <- truediv ci N ;;
    Ok (summation + q)
  else Ok summation.

(** The first [for key in currentRank] loop: it builds [newRank]. *)
Definition new_rank (corpus : gmap string (gset string))
    (damping_factor : Q) (N : Q) (currentRank : gmap string Q)
  : result (gmap string Q) :=
  for_each (keys currentRank)
    (λ newRank key,
       summation <- for_each (keys corpus)
         (summation_step corpus currentRank N key) 0 ;;
       base <- truediv (1 - damping_factor) N ;;
       Ok (<[key := base + damping_factor * summation]> newRank))
    ∅.

(** The second [for key in currentRank] loop: it builds [diff]. *)
Definition differences (currentRank newRank : gmap string Q)
  : result (list Q) :=
  for_each (keys currentRank)
    (λ diff key,
       c <- getitem currentRank key ;;
       n <- getitem newRank key ;;
       Ok (diff ++ [Qabs (c - n)]))
    [].

(** The threshold the program compares the differences with. *)
Definition threshold : Q := 0.0015.

(** [all(i < 0.0015 for i in diff)] *)
Definition all_below (diff : list Q) : bool :=
  forallb (λ i, Qlt_bool i threshold) diff.

(** [while run]: one round per unit of fuel. *)
Fixpoint iterate_loop (fuel : nat) (corpus : gmap string (gset string))
    (damping_factor : Q) (N : Q) (currentRank : gmap string Q)
  : option (result (gmap string Q)) :=
  match fuel with
  | O => None
  | S fuel' =>
      match new_rank corpus damping_factor N currentRank with
      | Raise e => Some (Raise e)
      | Ok newRank =>
          match differences currentRank newRank with
          | Raise e => Some (Raise e)
          | Ok diff =>
              if all_below diff then Some (Ok newRank)
              else iterate_loop fuel' corpus damping_factor N newRank
          end
      end
  end.

(** The initial [currentRank]. *)
Definition initial_rank (corpus : gmap string (gset string)) (N : Q)
  : result (gmap string Q) :=
  for_each (keys corpus)
    (λ currentRank key,
       v <- truediv 1 N ;;
       Ok (<[key := v]> currentRank))
    ∅.

Definition iterate_pagerank (fuel : nat) (corpus : gmap string (gset string))
    (damping_factor : Q) : option (result (gmap string Q)) :=
  let N := len corpus in
  match initial_rank corpus N with
  | Raise e => Some (Raise e)
  | Ok currentRank => iterate_loop fuel corpus damping_factor N currentRank
  end.

(** ** [iterate_pagerank] on sets that carry their enumeration order

    A Python [set] of strings enumerates its elements in hash order, and
    that order changes from one run of the interpreter to the next.  In
    this second reading of [iterate_pagerank] an out-link set is the
    duplicate-free list of its elements in enumeration order:
    [key in corpus[i]] is membership in the list and [len(corpus[i])] is
    its length.  Everything else is as above. *)








(** ** [crawl] *)

(** [s.endswith(suffix)] *)
Definition endswith (s suffix : string) : bool :=
  let n := String.length s in
  let m := String.length suffix in
  (m <=? n)%nat && String.eqb (String.substring (n - m) m s) suffix.

(** The first loop of [crawl], over the files of the directory.  The
    directory is given by its regular files: each file name with the text
    that [f.read()] returns, so listing and reading cannot fail.
    [findall contents] stands for [re.findall(pattern, contents)] with
    the pattern of the source, the link targets found in the text of a
    page; the regular expression itself is not modelled. *)
Definition crawl_extract (findall : string → list string)
    (directory : gmap string string) : result (gmap string (gset string)) :=
  for_each (map_to_list directory)
    (λ (pages : gmap string (gset string)) (file : string * string),
       let filename := file.1 in
       if negb (endswith filename ".html") then Ok pages else
       let contents := file.2 in
       let links := findall contents in
       Ok (<[filename := list_to_set links ∖ {[filename]}]> pages))
    ∅.

(** The second loop of [crawl]: only links to pages of the corpus stay. *)
Definition crawl_restrict (pages : gmap string (gset string))
  : result (gmap string (gset string)) :=
  for_each (keys pages)
    (λ (pages : gmap string (gset string)) filename,
       links <- getitem pages filename ;;
       Ok (<[filename := filter (λ link, link ∈ dom pages) links]> pages))
    pages.

Definition crawl (findall : string → list string)
    (directory : gmap string string) : result (gmap string (gset string)) :=
  pages <- crawl_extract findall directory ;;
  crawl_restrict pages.

(** ** The constants of the program *)

Definition DAMPING : Q := 0.85.
Definition SAMPLES : Z := 10000.

(** The module-level [corpus]. *)
Definition sample_corpus : gmap string (gset string) :=
  <["1.html" := {["2.html"; "3.html"]}]>
    (<["2.html" := {["3.html"]}]>
       (<["3.html" := {["2.html"]}]> ∅)).

(** ** Notions of the specification *)

(** The value a distribution gives to a node. *)
Definition rank (m : gmap string Q) (k : string) : Q := default 0 (m !! k).

Fixpoint Qsum (l : list Q) : Q :=
  match l with
  | [] => 0
  | x :: l' => x + Qsum l'
  end.

(** The sum of the values of a distribution. *)
Definition total (m : gmap string Q) : Q := Qsum (map_to_list m).*2.

(** The loader's invariant: every link points to a page of the graph. *)
Definition closed (corpus : gmap string (gset string)) : Prop :=
  map_Forall (λ _ links, links ⊆ dom corpus) corpus.

(** [contribution(i, p)] of the iterative solver, in the words of the
    specification. *)
Definition contribution (corpus : gmap string (gset string))
    (currentRank : gmap string Q) (i p : string) : Q :=
  let links := default ∅ (corpus !! i) in
  if bool_decide (p ∈ links) then rank currentRank i / len_set links
  else if bool_decide (links = ∅) then rank currentRank i / len corpus
  else 0.

(** The PageRank recurrence of the specification:
    [(1-d)/N + d * sum over i of contribution(i, p)]. *)
Definition recurrence (corpus : gmap string (gset string)) (d : Q)
    (currentRank : gmap string Q) (p : string) : Q :=
  (1 - d) / len corpus
  + d * Qsum ((λ i, contribution corpus currentRank i p) <$> keys corpus).

(** Every node's rank moved by less than [eps] between two states. *)
Definition converged (eps : Q) (currentRank newRank : gmap string Q) : Prop :=
  ∀ key, key ∈ dom currentRank →
    Qabs (rank currentRank key - rank newRank key) < eps.

(** The threshold the specification names. *)
Definition spec_threshold : Q := 0.001.

(** A distribution that is 1 on [node] and 0 elsewhere. *)
Definition one_hot (node : string) (m : gmap string Q) : Prop :=
  ∀ key, key ∈ dom m → rank m key == (if decide (key = node) then 1 else 0).

(** The share of the rank of page [i] that one pass of the recurrence
    hands to page [p]. *)
Definition weight (corpus : gmap string (gset string)) (i p : string) : Q :=
  let links := default ∅ (corpus !! i) in
  if bool_decide (p ∈ links) then 1 / len_set links
  else if bool_decide (links = ∅) then 1 / len corpus
  else 0.

(** The distance between two distributions over the nodes of the graph:
    the sum of the absolute differences. *)
Definition distance (corpus : gmap string (gset string))
    (m1 m2 : gmap string Q) : Q :=
  Qsum ((λ p, Qabs (rank m1 p - rank m2 p)) <$> keys corpus).

Fixpoint Qpow (x : Q) (k : nat) : Q :=
  match k with
  | O => 1
  | S k' => x * Qpow x k'
  end.

(** A graph in which some page links outside the graph. *)
Definition dangling : gmap string (gset string) :=
  <["a" := {["b"; "z"]}]> (<["b" := ∅]> ∅).

(** A directory of three files, each page holding one link, read with a
    [findall] that takes the whole text of a file as its one link. *)
Definition site : gmap string string :=
  <["1.html" := "2.html"]>
    (<["2.html" := "1.html"]> (<["notes.txt" := "1.html"]> ∅)).

Definition whole_text (contents : string) : list string := [contents].

(** A directory without any page. *)
Definition no_pages : gmap string string := {["notes.txt" := "1.html"]}.



(** Three pages without any link. *)
Definition three_sinks : gmap string (gset string) :=
  <["a" := ∅]> (<["b" := ∅]> (<["c" := ∅]> ∅)).

(** Graphs used as concrete inputs. *)
Definition single : gmap string (gset string) := {["a" := ∅]}.

Definition chain2 : gmap string (gset string) :=
  <["a" := {["b"]}]> (<["b" := ∅]> ∅).




(** * Properties *)

(** ** The error monad and the loops *)

(** A loop whose body cannot fail and keeps an invariant; [done] is the
    part of the list already visited. *)
Lemma for_each_inv {A S : Type} (I : list A → S → Prop)
    (body : S → A → result S) (l : list A) (s : S) :
  I [] s →
  (∀ done x rest s, l = done ++ x :: rest → I done s →
     ∃ s', body s x = Ok s' ∧ I (done ++ [x]) s') →
  ∃ s', for_each l body s = Ok s' ∧ I l s'.
Proof.
  intros H0 Hstep.
  assert (∀ rest done s, l = done ++ rest → I done s →
            ∃ s', for_each rest body s = Ok s' ∧ I l s') as Hgen.
  { induction rest as [|x rest IH]; intros done s0 Hl HI.
    - rewrite app_nil_r in Hl. subst done. eauto.
    - destruct (Hstep done x rest s0 Hl HI) as (s1 & Hb & HI1).
      simpl. rewrite Hb. simpl.
      apply (IH (done ++ [x])); [by rewrite <- app_assoc | done]. }
  apply (Hgen l [] s); done.
Qed.

(** ** Dictionaries and numbers *)

Lemma elem_of_keys {V : Type} (d : gmap string V) (k : string) :
  k ∈ keys d ↔ k ∈ dom d.
Proof.
  unfold keys. rewrite elem_of_dom. split.
  - intros Hk. apply list_elem_of_fmap in Hk as ([k' v] & -> & Hin).
    apply elem_of_map_to_list in Hin. eauto.
  - intros [v Hv]. apply list_elem_of_fmap. exists (k, v).
    split; [done|]. by apply elem_of_map_to_list.
Qed.

Lemma NoDup_keys {V : Type} (d : gmap string V) : NoDup (keys d).
Proof. apply NoDup_fst_map_to_list. Qed.

Lemma length_keys {V : Type} (d : gmap string V) : length (keys d) = size d.
Proof. unfold keys. by rewrite length_fmap, length_map_to_list. Qed.

Lemma inject_nat_nonzero (n : nat) : n ≠ 0%nat → ¬ inject_Z (Z.of_nat n) == 0.
Proof.
  intros Hn Heq. unfold Qeq in Heq. simpl in Heq. lia.
Qed.

Lemma len_nonzero {V : Type} (d : gmap string V) (k : string) :
  k ∈ dom d → ¬ len d == 0.
Proof.
  intros Hk. apply inject_nat_nonzero. intros Hsz.
  apply map_size_empty_iff in Hsz. subst d. by rewrite dom_empty_L in Hk.
Qed.

Lemma len_set_nonzero (s : gset string) : s ≠ ∅ → ¬ len_set s == 0.
Proof.
  intros Hs. apply inject_nat_nonzero. intros Hsz. apply Hs.
  by apply leibniz_equiv, size_empty_iff.
Qed.

Lemma truediv_ok (x y : Q) : ¬ y == 0 → truediv x y = Ok (x / y).
Proof.
  intros Hy. unfold truediv. destruct (Qeq_bool y 0) eqn:E; [|done].
  by apply Qeq_bool_iff in E.
Qed.

Lemma truediv_zero (x y : Q) : y == 0 → truediv x y = Raise ZeroDivisionError.
Proof.
  intros Hy. unfold truediv. apply Qeq_bool_iff in Hy. by rewrite Hy.
Qed.

Lemma getitem_ok {V : Type} (d : gmap string V) (k : string) (v : V) :
  d !! k = Some v → getitem d k = Ok v.
Proof. intros H. unfold getitem. by rewrite H. Qed.

Lemma getitem_missing {V : Type} (d : gmap string V) (k : string) :
  d !! k = None → getitem d k = Raise KeyError.
Proof. intros H. unfold getitem. by rewrite H. Qed.

Lemma size_eqb_empty (s : gset string) : (size s =? 0)%nat = bool_decide (s = ∅).
Proof.
  destruct (decide (s = ∅)) as [->|Hne].
  - by rewrite size_empty.
  - rewrite bool_decide_eq_false_2 by done. apply Nat.eqb_neq.
    intros Hsz. by apply Hne, leibniz_equiv, size_empty_iff.
Qed.

(** [for key in ks: output[key] = c]: every visited key maps to [c]. *)
Lemma for_each_fill (e : result Q) (c : Q) (ks : list string)
    (m : gmap string Q) :
  (ks ≠ [] → e = Ok c) →
  ∃ out, for_each ks (λ output key, v <- e ;; Ok (<[key := v]> output)) m
         = Ok out
       ∧ ∀ k, out !! k = if decide (k ∈ ks) then Some c else m !! k.
Proof.
  intros He.
  apply (for_each_inv
    (λ done out, ∀ k, out !! k = if decide (k ∈ done) then Some c else m !! k)
    (λ output key, v <- e ;; Ok (<[key := v]> output)) ks m).
  - intros k. rewrite decide_False; [done|]. apply not_elem_of_nil.
  - intros done x rest out Hl HI. rewrite He by (by destruct done; subst ks).
    simpl. eexists; split; [done|]. intros k.
    destruct (decide (k = x)) as [->|Hne].
    + rewrite lookup_insert_eq, decide_True; [done|].
      apply elem_of_app. right. left.
    + rewrite lookup_insert_ne by done. rewrite HI.
      destruct (decide (k ∈ done)) as [Hin|Hnin].
      * rewrite decide_True; [done|]. apply elem_of_app. by left.
      * rewrite decide_False; [done|]. intros Hin.
        apply elem_of_app in Hin as [?|Hin]; [done|].
        apply list_elem_of_singleton in Hin. done.
Qed.

(** [for pageLink in links: output[pageLink] += prob] *)
Lemma for_each_add (prob : Q) (links : gset string) (m : gmap string Q) :
  links ⊆ dom m →
  ∃ out, for_each (elements links)
           (λ output pageLink,
              v <- getitem output pageLink ;;
              Ok (<[pageLink := v + prob]> output)) m
         = Ok out
       ∧ ∀ k, out !! k =
           if decide (k ∈ links) then (λ v, v + prob) <$> m !! k else m !! k.
Proof.
  intros Hsub.
  pose proof (NoDup_elements links) as Hnd.
  destruct (for_each_inv
    (λ done out, ∀ k, out !! k =
       if decide (k ∈ done) then (λ v, v + prob) <$> m !! k else m !! k)
    (λ output pageLink,
       v <- getitem output pageLink ;;
       Ok (<[pageLink := v + prob]> output))
    (elements links) m) as (out & Hout & HI).
  - intros k. rewrite decide_False; [done|]. apply not_elem_of_nil.
  - intros done x rest out Hl HI.
    rewrite Hl in Hnd. apply NoDup_app in Hnd as (_ & Hdisj & _).
    assert (x ∉ done) as Hx.
    { intros Hin. apply (Hdisj x Hin). left. }
    assert (x ∈ links) as Hxl.
    { apply elem_of_elements. rewrite Hl. apply elem_of_app. right. left. }
    destruct (m !! x) as [v|] eqn:Hmx.
    2:{ apply Hsub, elem_of_dom in Hxl. rewrite Hmx in Hxl.
        by destruct Hxl. }
    rewrite (getitem_ok out x v).
    2:{ rewrite HI, decide_False by done. done. }
    simpl. eexists; split; [done|]. intros k.
    destruct (decide (k = x)) as [->|Hne].
    + rewrite lookup_insert_eq, decide_True, Hmx; [done|].
      apply elem_of_app. right. left.
    + rewrite lookup_insert_ne by done. rewrite HI.
      destruct (decide (k ∈ done)) as [Hin|Hnin].
      * rewrite decide_True; [done|]. apply elem_of_app. by left.
      * rewrite decide_False; [done|]. intros Hin.
        apply elem_of_app in Hin as [?|Hin]; [done|].
        apply list_elem_of_singleton in Hin. done.
  - exists out. split; [done|]. intros k. rewrite HI.
    destruct (decide (k ∈ elements links)) as [Hin|Hnin].
    + rewrite decide_True; [done|]. by apply elem_of_elements.
    + rewrite decide_False; [done|]. by rewrite <- elem_of_elements.
Qed.

(** ** [transition_model] *)

(** The probability [transition_model] gives to [key], for a page whose
    out-links are [links]. *)
Lemma transition_model_lookup (corpus : gmap string (gset string))
    (page : string) (d : Q) (links : gset string) :
  corpus !! page = Some links →
  links ⊆ dom corpus →
  ∃ output, transition_model corpus page d = Ok output
    ∧ ∀ key, output !! key =
        if decide (key ∈ dom corpus) then
          Some (if decide (links = ∅) then 1 / len corpus
                else if decide (key ∈ links)
                     then (1 - d) / len corpus + d / len_set links
                     else (1 - d) / len corpus)
        else None.
Proof.
  intros Hpage Hsub.
  assert (page ∈ dom corpus) as Hdom by (apply elem_of_dom; eauto).
  pose proof (len_nonzero corpus page Hdom) as HN.
  unfold transition_model. rewrite (getitem_ok _ _ _ Hpage). simpl.
  rewrite size_eqb_empty.
  destruct (decide (links = ∅)) as [Hempty|Hne].
  - rewrite bool_decide_eq_true_2 by done.
    destruct (for_each_fill (truediv 1 (len corpus)) (1 / len corpus)
                (keys corpus) ∅) as (out & -> & Hout).
    { intros _. by apply truediv_ok. }
    exists out. split; [done|]. intros key. rewrite Hout.
    destruct (decide (key ∈ keys corpus)) as [Hin|Hnin].
    + rewrite decide_True; [done|]. by apply elem_of_keys.
    + rewrite decide_False; [apply lookup_empty|]. by rewrite <- elem_of_keys.
  - rewrite bool_decide_eq_false_2 by done.
    destruct (for_each_fill (truediv (1 - d) (len corpus))
                ((1 - d) / len corpus) (keys corpus) ∅) as (out & -> & Hout).
    { intros _. by apply truediv_ok. }
    simpl. rewrite (truediv_ok d (len_set links)) by (by apply len_set_nonzero).
    simpl.
    assert (∀ key, out !! key =
              if decide (key ∈ dom corpus) then Some ((1 - d) / len corpus)
              else None) as Hout'.
    { intros key. rewrite Hout.
      destruct (decide (key ∈ keys corpus)) as [Hin|Hnin].
      + rewrite decide_True; [done|]. by apply elem_of_keys.
      + rewrite decide_False; [apply lookup_empty|].
        by rewrite <- elem_of_keys. }
    destruct (for_each_add (d / len_set links) links out) as (out2 & -> & Hout2).
    { intros l Hl. apply elem_of_dom. rewrite Hout', decide_True; eauto. }
    exists out2. split; [done|]. intros key. rewrite Hout2, Hout'.
    destruct (decide (key ∈ dom corpus)) as [Hin|Hnin].
    + by destruct (decide (key ∈ links)).
    + rewrite decide_False; [done|]. intros Hl. by apply Hnin, Hsub.
Qed.

(** C3. For a page of the graph whose out-link set [links] is not empty
    (and, as in every graph, lies inside the graph), [transition_model]
    returns a distribution that gives [(1-d)/N + d/|links|] to every node
    of [links] and [(1-d)/N] to every other node, for every damping
    factor [d]. *)
Theorem transition_model_non_sink (corpus : gmap string (gset string))
    (page : string) (d : Q) (links : gset string) :
  corpus !! page = Some links →
  links ≠ ∅ →
  links ⊆ dom corpus →
  ∃ output, transition_model corpus page d = Ok output
    ∧ ∀ key, key ∈ dom corpus →
        output !! key =
          Some (if decide (key ∈ links)
                then (1 - d) / len corpus + d / len_set links
                else (1 - d) / len corpus).
Proof.
  intros Hpage Hne Hsub.
  destruct (transition_model_lookup corpus page d links Hpage Hsub)
    as (output & Htm & Hout).
  exists output. split; [done|]. intros key Hkey.
  rewrite Hout, decide_True by done. by rewrite decide_False.
Qed.

Lemma transition_model_non_sink_witness :
  ∃ output, transition_model sample_corpus "1.html" DAMPING = Ok output
    ∧ ∀ key, key ∈ dom sample_corpus →
        output !! key =
          Some (if decide (key ∈ ({["2.html"; "3.html"]} : gset string))
                then (1 - DAMPING) / len sample_corpus
                     + DAMPING / len_set {["2.html"; "3.html"]}
                else (1 - DAMPING) / len sample_corpus).
Proof.
  apply (transition_model_non_sink sample_corpus "1.html" DAMPING
           {["2.html"; "3.html"]}).
  - reflexivity.
  - apply (bool_decide_unpack _). vm_compute. exact I.
  - apply (bool_decide_unpack _). vm_compute. exact I.
Defined.

(** C4. For a page of the graph that is a sink, [transition_model]
    returns the uniform distribution: its keys are the nodes of the graph,
    every one of them has probability exactly [1/N], and the result is the
    same for every damping factor. *)
Theorem transition_model_sink (corpus : gmap string (gset string))
    (page : string) (d : Q) :
  corpus !! page = Some ∅ →
  ∃ output, transition_model corpus page d = Ok output
    ∧ dom output = dom corpus
    ∧ (∀ key, key ∈ dom corpus → output !! key = Some (1 / len corpus))
    ∧ ∀ d', transition_model corpus page d' = Ok output.
Proof.
  intros Hpage.
  destruct (transition_model_lookup corpus page d ∅ Hpage)
    as (output & Htm & Hout); [set_solver|].
  exists output. split; [done|].
  assert (∀ key, output !! key =
            if decide (key ∈ dom corpus) then Some (1 / len corpus) else None)
    as Hout'.
  { intros key. rewrite Hout. by rewrite (decide_True (P := (∅ : gset string) = ∅)). }
  split; [|split].
  - apply set_eq. intros key. rewrite elem_of_dom, Hout'.
    destruct (decide (key ∈ dom corpus)) as [Hin|Hnin].
    + split; eauto.
    + split; [by intros [? ?]|done].
  - intros key Hkey. by rewrite Hout', decide_True.
  - intros d'.
    destruct (transition_model_lookup corpus page d' ∅ Hpage)
      as (output' & Htm' & Hout2); [set_solver|].
    rewrite Htm'. f_equal. apply map_eq. intros key.
    rewrite Hout, Hout2. done.
Qed.

Lemma transition_model_sink_witness :
  ∃ output, transition_model chain2 "b" DAMPING = Ok output
    ∧ dom output = dom chain2
    ∧ (∀ key, key ∈ dom chain2 → output !! key = Some (1 / len chain2))
    ∧ ∀ d', transition_model chain2 "b" d' = Ok output.
Proof.
  apply (transition_model_sink chain2 "b" DAMPING). reflexivity.
Defined.

(** ** Sums *)

Lemma Qsum_perm (l1 l2 : list Q) : l1 ≡ₚ l2 → Qsum l1 == Qsum l2.
Proof.
  induction 1 as [|x l1 l2 _ IH|x y l|l1 l2 l3 _ IH1 _ IH2]; csimpl.
  - lra.
  - rewrite IH. lra.
  - lra.
  - by rewrite IH1.
Qed.

Lemma Qsum_ext {A : Type} (f g : A → Q) (l : list A) :
  (∀ x, x ∈ l → f x == g x) → Qsum (f <$> l) == Qsum (g <$> l).
Proof.
  induction l as [|x l IH]; intros H; csimpl; [lra|].
  rewrite IH, (H x).
  - lra.
  - left.
  - intros y Hy. apply H. by right.
Qed.

Lemma Qsum_le {A : Type} (f g : A → Q) (l : list A) :
  (∀ x, x ∈ l → f x <= g x) → Qsum (f <$> l) <= Qsum (g <$> l).
Proof.
  induction l as [|x l IH]; intros H; csimpl; [lra|].
  assert (f x <= g x) by (apply H; left).
  assert (Qsum (f <$> l) <= Qsum (g <$> l))
    by (apply IH; intros y Hy; apply H; by right).
  lra.
Qed.

Lemma Qsum_nonneg {A : Type} (f : A → Q) (l : list A) :
  (∀ x, x ∈ l → 0 <= f x) → 0 <= Qsum (f <$> l).
Proof.
  induction l as [|x l IH]; intros H; csimpl; [lra|].
  assert (0 <= f x) by (apply H; left).
  assert (0 <= Qsum (f <$> l)) by (apply IH; intros y Hy; apply H; by right).
  lra.
Qed.

Lemma Qsum_const {A : Type} (c : Q) (l : list A) :
  Qsum ((λ _, c) <$> l) == inject_Z (Z.of_nat (length l)) * c.
Proof.
  induction l as [|x l IH].
  - csimpl. change (inject_Z (Z.of_nat 0)) with 0. ring.
  - csimpl.
    rewrite IH, Nat2Z.inj_succ, <- Z.add_1_r, inject_Z_plus.
    change (inject_Z 1) with 1. ring.
Qed.

Lemma Qsum_scale {A : Type} (c : Q) (f : A → Q) (l : list A) :
  Qsum ((λ x, c * f x) <$> l) == c * Qsum (f <$> l).
Proof.
  induction l as [|x l IH]; csimpl; [ring|]. rewrite IH. ring.
Qed.

Lemma Qsum_plus {A : Type} (f g : A → Q) (l : list A) :
  Qsum ((λ x, f x + g x) <$> l) == Qsum (f <$> l) + Qsum (g <$> l).
Proof.
  induction l as [|x l IH]; csimpl; [lra|]. rewrite IH. lra.
Qed.

(** Exchanging two finite sums. *)
Lemma Qsum_swap {A B : Type} (f : A → B → Q) (la : list A) (lb : list B) :
  Qsum ((λ a, Qsum ((λ b, f a b) <$> lb)) <$> la)
  == Qsum ((λ b, Qsum ((λ a, f a b) <$> la)) <$> lb).
Proof.
  induction la as [|a la IH]; csimpl.
  - rewrite (Qsum_const 0 lb). ring.
  - rewrite IH. rewrite (Qsum_plus (f a) (λ b, Qsum ((λ a, f a b) <$> la))).
    reflexivity.
Qed.

(** A sum restricted to the members of a set is the sum over the set. *)
Lemma Qsum_filter (f : string → Q) (s : gset string) (l : list string) :
  Qsum ((λ k, if bool_decide (k ∈ s) then f k else 0) <$> l)
  == Qsum (f <$> filter (λ k, k ∈ s) l).
Proof.
  induction l as [|x l IH]; csimpl; [lra|].
  rewrite IH. destruct (decide (x ∈ s)) as [Hin|Hnin].
  - rewrite filter_cons_True, bool_decide_eq_true_2 by done. reflexivity.
  - rewrite filter_cons_False, bool_decide_eq_false_2 by done. lra.
Qed.

Lemma Qsum_members (f : string → Q) (s : gset string) (l : list string) :
  NoDup l →
  (∀ k, k ∈ s → k ∈ l) →
  Qsum ((λ k, if bool_decide (k ∈ s) then f k else 0) <$> l)
  == Qsum (f <$> elements s).
Proof.
  intros Hnd Hsub. rewrite Qsum_filter. apply Qsum_perm, fmap_Permutation.
  apply NoDup_Permutation.
  - by apply NoDup_filter.
  - apply NoDup_elements.
  - intros k. rewrite list_elem_of_filter, elem_of_elements.
    split; [by intros [? ?]|]. intros Hk. split; [done|]. by apply Hsub.
Qed.


(** The total of a distribution, as a sum over its keys. *)
Lemma total_keys (m : gmap string Q) : total m = Qsum (rank m <$> keys m).
Proof.
  unfold total, keys. rewrite <- list_fmap_compose. f_equal.
  apply Forall_fmap_ext_1, Forall_forall. intros [k v] Hin.
  apply elem_of_map_to_list in Hin. unfold rank. simpl. by rewrite Hin.
Qed.

Lemma total_over (m : gmap string Q) (ks : list string) :
  NoDup ks → (∀ k, k ∈ ks ↔ k ∈ dom m) →
  total m == Qsum (rank m <$> ks).
Proof.
  intros Hnd Hks. rewrite total_keys. apply Qsum_perm, fmap_Permutation.
  apply NoDup_Permutation; [apply NoDup_keys|done|].
  intros k. by rewrite elem_of_keys, Hks.
Qed.

Lemma total_delete (m : gmap string Q) (k : string) (v : Q) :
  m !! k = Some v → total m == v + total (delete k m).
Proof.
  intros Hk. unfold total.
  rewrite <- (Qsum_perm _ _ (fmap_Permutation snd _ _
                               (map_to_list_delete m k v Hk))).
  reflexivity.
Qed.

(** [output[k] = v'] on an existing key moves the total by [v' - v]. *)
Lemma total_insert (m : gmap string Q) (k : string) (v v' : Q) :
  m !! k = Some v → total (<[k := v']> m) == total m - v + v'.
Proof.
  intros Hk. rewrite (total_delete m k v Hk).
  rewrite (total_delete (<[k := v']> m) k v') by apply lookup_insert_eq.
  rewrite delete_insert_eq. lra.
Qed.

Lemma total_zero (m : gmap string Q) :
  (∀ k v, m !! k = Some v → v == 0) → total m == 0.
Proof.
  intros H. rewrite total_keys.
  rewrite (Qsum_ext (rank m) (λ _, 0)).
  - rewrite Qsum_const. ring.
  - intros k Hk. apply elem_of_keys, elem_of_dom in Hk as [v Hv].
    unfold rank. rewrite Hv. simpl. by apply (H k).
Qed.

Lemma total_div (m : gmap string Q) (c : Q) :
  total ((λ x, x / c) <$> m) == total m / c.
Proof.
  unfold total. rewrite map_to_list_fmap.
  induction (map_to_list m) as [|[k v] l IH]; csimpl.
  - unfold Qdiv. ring.
  - rewrite IH. unfold Qdiv. ring.
Qed.

(** The distribution of [transition_model] sums to 1. *)
Lemma transition_model_total (corpus : gmap string (gset string))
    (page : string) (d : Q) (links : gset string) (output : gmap string Q) :
  corpus !! page = Some links →
  links ⊆ dom corpus →
  transition_model corpus page d = Ok output →
  total output == 1.
Proof.
  intros Hpage Hsub Htm.
  destruct (transition_model_lookup corpus page d links Hpage Hsub)
    as (output' & Htm' & Hout).
  rewrite Htm in Htm'. injection Htm' as <-.
  assert (page ∈ dom corpus) as Hdom by (apply elem_of_dom; eauto).
  pose proof (len_nonzero corpus page Hdom) as HN.
  rewrite (total_over output (keys corpus)).
  2:{ apply NoDup_keys. }
  2:{ intros k. rewrite elem_of_keys, (elem_of_dom output), Hout.
      destruct (decide (k ∈ dom corpus)) as [Hin|Hnin].
      - split; eauto.
      - split; [done|by intros [? ?]]. }
  destruct (decide (links = ∅)) as [Hempty|Hne].
  - rewrite (Qsum_ext _ (λ _, 1 / len corpus)).
    + rewrite Qsum_const, length_keys. fold (len corpus). by field.
    + intros k Hk. apply elem_of_keys in Hk. unfold rank.
      rewrite Hout, decide_True by done. reflexivity.
  - pose proof (len_set_nonzero links Hne) as HL.
    rewrite (Qsum_ext _
      (λ k, (1 - d) / len corpus
            + (if bool_decide (k ∈ links) then d / len_set links else 0))).
    + rewrite Qsum_plus, Qsum_const, length_keys. fold (len corpus).
      rewrite (Qsum_members (λ _, d / len_set links) links (keys corpus)).
      * rewrite Qsum_const. unfold len_set at 1 in HL.
        change (length (elements links)) with (size links).
        fold (len_set links). field. done.
      * apply NoDup_keys.
      * intros k Hk. by apply elem_of_keys, Hsub.
    + intros k Hk. apply elem_of_keys in Hk. unfold rank.
      rewrite Hout, decide_True by done. simpl.
      destruct (decide (k ∈ links)).
      * rewrite bool_decide_eq_true_2 by done. reflexivity.
      * rewrite bool_decide_eq_false_2 by done. lra.
Qed.

(** ** The [random] module *)

Lemma random_choice_ok {A : Type} (r : nat) (seq : list A) :
  seq ≠ [] → ∃ x, random_choice r seq = Ok x ∧ x ∈ seq.
Proof.
  intros Hne. unfold random_choice.
  assert (r mod length seq < length seq)%nat as Hlt.
  { apply Nat.mod_upper_bound. by destruct seq. }
  apply lookup_lt_is_Some in Hlt as [x Hx]. rewrite Hx.
  exists x. split; [done|]. by eapply list_elem_of_lookup_2.
Qed.

Lemma length_running_totals (ws : list Q) (t : Q) :
  length (running_totals t ws) = length ws.
Proof. revert t. induction ws as [|w ws IH]; intros t; simpl; auto. Qed.

Lemma length_accumulate (ws : list Q) : length (accumulate ws) = length ws.
Proof. destruct ws; simpl; [done|]. by rewrite length_running_totals. Qed.

Lemma last_running_totals (ws : list Q) (t : Q) :
  ∃ t', last (t :: running_totals t ws) = Some t' ∧ t' == t + Qsum ws.
Proof.
  revert t. induction ws as [|w ws IH]; intros t.
  - exists t. split; [done|]. simpl. lra.
  - destruct (IH (t + w)) as (t' & Hlast & Ht').
    exists t'. split.
    + simpl running_totals. by rewrite last_cons_cons.
    + rewrite Ht'. simpl. lra.
Qed.

Lemma last_accumulate (ws : list Q) :
  ws ≠ [] → ∃ t, last (accumulate ws) = Some t ∧ t == Qsum ws.
Proof.
  destruct ws as [|w ws]; [done|]. intros _.
  destruct (last_running_totals ws w) as (t & Hlast & Ht). eauto.
Qed.

Lemma bisect_loop_bound (rounds : nat) (a : list Q) (x : Q) (lo hi : nat) :
  (lo ≤ hi)%nat → (bisect_loop rounds a x lo hi ≤ hi)%nat.
Proof.
  revert lo hi. induction rounds as [|rounds IH]; intros lo hi Hle;
    cbn [bisect_loop].
  - done.
  - destruct (lo <? hi)%nat eqn:Hlt; [|done].
    apply Nat.ltb_lt in Hlt.
    assert ((lo + hi) / 2 < hi)%nat as Hmid.
    { apply Nat.Div0.div_lt_upper_bound. lia. }
    destruct (Qlt_bool x (default 0 (a !! ((lo + hi) / 2)%nat))).
    + etrans; [apply IH|]; [|lia].
      apply Nat.div_le_lower_bound; lia.
    + apply IH. lia.
Qed.

(** With as many weights as candidates and a positive total weight,
    [random.choices] returns one of the candidates, whatever the draw. *)
Lemma random_choices_ok (u : Q) (population : list string) (weights : list Q) :
  length weights = length population →
  population ≠ [] →
  0 < Qsum weights →
  ∃ x, random_choices u population weights = Ok x ∧ x ∈ population.
Proof.
  intros Hlen Hne Hpos. unfold random_choices.
  rewrite length_accumulate, Hlen, Nat.eqb_refl. simpl.
  destruct (last_accumulate weights) as (t & -> & Ht).
  { intros ->. by destruct population. }
  destruct (Qle_bool t 0) eqn:Hle.
  { apply Qle_bool_iff in Hle. lra. }
  pose proof (bisect_loop_bound (length population - 1 - 0)
                (accumulate weights) (u * t) 0 (length population - 1)
                ltac:(lia)) as Hb.
  fold (bisect (accumulate weights) (u * t) 0 (length population - 1)) in Hb.
  destruct (population !! bisect (accumulate weights) (u * t) 0
                          (length population - 1)) as [x|] eqn:Hx.
  - exists x. split; [done|]. by eapply list_elem_of_lookup_2.
  - apply lookup_ge_None in Hx. destruct population; [done|]. simpl in *. lia.
Qed.

(** ** [sample_pagerank] *)

(** The loop that copies [dist] into the lists [page] and [weight]. *)
Lemma page_weight_loop (dist : gmap string Q) (l : list (string * Q))
    (acc : list string * list Q) :
  (∀ k v, (k, v) ∈ l → dist !! k = Some v) →
  for_each l.*1
    (λ (pw : list string * list Q) key,
       w <- getitem dist key ;;
       Ok (pw.1 ++ [key], pw.2 ++ [w]))
    acc
  = Ok (acc.1 ++ l.*1, acc.2 ++ l.*2).
Proof.
  revert acc. induction l as [|[k v] l IH]; intros acc Hl; csimpl.
  - rewrite !app_nil_r. by destruct acc.
  - rewrite (getitem_ok dist k v) by (apply Hl; left). simpl.
    rewrite IH by (intros k' v' Hin; apply Hl; by right).
    simpl. by rewrite <- !app_assoc.
Qed.

(** One round of the sampling loop: it counts the current page and moves
    to a page of the graph. *)
Lemma sample_step_ok (corpus : gmap string (gset string)) (d u : Q)
    (nextSample : string) (output : gmap string Q) :
  closed corpus →
  nextSample ∈ dom corpus →
  dom output = dom corpus →
  ∃ next c,
    sample_step corpus d u (nextSample, output)
      = Ok (next, <[nextSample := c + 1]> output)
    ∧ output !! nextSample = Some c
    ∧ next ∈ dom corpus.
Proof.
  intros Hclosed Hnext Hdom.
  assert (is_Some (output !! nextSample)) as [c Hc].
  { apply elem_of_dom. by rewrite Hdom. }
  apply elem_of_dom in Hnext as Hlinks. destruct Hlinks as [links Hlinks].
  pose proof (Hclosed nextSample links Hlinks) as Hsub. simpl in Hsub.
  destruct (transition_model_lookup corpus nextSample d links Hlinks Hsub)
    as (dist & Htm & Hdist).
  pose proof (transition_model_total corpus nextSample d links dist
                Hlinks Hsub Htm) as Htot.
  unfold sample_step. simpl.
  rewrite (getitem_ok output nextSample c Hc). simpl.
  rewrite Htm. simpl.
  unfold keys at 1.
  rewrite (page_weight_loop dist (map_to_list dist) ([], [])).
  2:{ intros k v Hin. by apply elem_of_map_to_list. }
  simpl.
  destruct (random_choices_ok u (map_to_list dist).*1 (map_to_list dist).*2)
    as (next & -> & Hin).
  - by rewrite !length_fmap.
  - intros Hnil. apply fmap_nil_inv in Hnil.
    unfold total in Htot. rewrite Hnil in Htot. simpl in Htot. lra.
  - fold (total dist). lra.
  - simpl. exists next, c. split; [done|]. split; [done|].
    fold (keys dist) in Hin. apply elem_of_keys, elem_of_dom in Hin.
    rewrite Hdist in Hin. destruct (decide (next ∈ dom corpus)); [done|].
    by destruct Hin.
Qed.

Lemma length_range (start stop : Z) :
  length (range start stop) = Z.to_nat (stop - start).
Proof. unfold range. by rewrite length_fmap, length_seq. Qed.

Lemma rank_insert (m : gmap string Q) (k k' : string) (v : Q) :
  rank (<[k := v]> m) k' = if decide (k = k') then v else rank m k'.
Proof.
  unfold rank. rewrite lookup_insert. by destruct (decide (k = k')).
Qed.

(** The sampling loop records one visit per round and never leaves the
    graph. *)
Lemma sample_loop_ok (corpus : gmap string (gset string)) (d : Q)
    (us : Z → Q) (l : list Z) (nextSample : string) (output : gmap string Q) :
  closed corpus →
  nextSample ∈ dom corpus →
  dom output = dom corpus →
  (∀ k, 0 <= rank output k) →
  ∃ st, for_each l (λ st i, sample_step corpus d (us i) st)
          (nextSample, output) = Ok st
    ∧ st.1 ∈ dom corpus
    ∧ dom st.2 = dom corpus
    ∧ total st.2 == total output + inject_Z (Z.of_nat (length l))
    ∧ ∀ k, 0 <= rank st.2 k.
Proof.
  intros Hclosed. revert nextSample output.
  induction l as [|i l IH]; intros nextSample output Hnext Hdom Hpos.
  - exists (nextSample, output). simpl. repeat split; try done.
    change (inject_Z (Z.of_nat 0)) with 0. lra.
  - destruct (sample_step_ok corpus d (us i) nextSample output
                Hclosed Hnext Hdom) as (next & c & Hstep & Hc & Hin).
    destruct (IH next (<[nextSample := c + 1]> output)) as
      (st & Hloop & Hst1 & Hst2 & Htot & Hst3).
    + done.
    + rewrite dom_insert_L, Hdom.
      apply set_eq. intros k. rewrite elem_of_union, elem_of_singleton.
      split; [intros [->|?]; done|auto].
    + intros k. rewrite rank_insert. destruct (decide (nextSample = k)).
      * specialize (Hpos nextSample). unfold rank in Hpos.
        rewrite Hc in Hpos. simpl in Hpos. lra.
      * apply Hpos.
    + exists st. cbn [for_each]. rewrite Hstep. cbn [bind].
      repeat split; try done.
      rewrite Htot, (total_insert output nextSample c (c + 1) Hc).
      cbn [length]. rewrite Nat2Z.inj_succ, <- Z.add_1_r, inject_Z_plus.
      change (inject_Z 1) with 1. lra.
Qed.

(** The last loop, [output[key] = output[key]/n], for [n] not zero. *)
Lemma divide_loop_ok (output : gmap string Q) (n : Q) :
  ¬ n == 0 →
  for_each (keys output)
    (λ output key,
       c <- getitem output key ;;
       v <- truediv c n ;;
       Ok (<[key := v]> output))
    output
  = Ok ((λ c, c / n) <$> output).
Proof.
  intros Hn. pose proof (NoDup_keys output) as Hnd.
  destruct (for_each_inv
    (λ done out, ∀ k, out !! k =
       if decide (k ∈ done) then (λ c, c / n) <$> output !! k
       else output !! k)
    (λ output key,
       c <- getitem output key ;;
       v <- truediv c n ;;
       Ok (<[key := v]> output))
    (keys output) output) as (out & Hout & HI).
  - intros k. rewrite decide_False; [done|]. apply not_elem_of_nil.
  - intros done x rest out Hl HI.
    rewrite Hl in Hnd. apply NoDup_app in Hnd as (_ & Hdisj & _).
    assert (x ∉ done) as Hx.
    { intros Hin. apply (Hdisj x Hin). left. }
    assert (is_Some (output !! x)) as [c Hc].
    { apply elem_of_dom, elem_of_keys. rewrite Hl.
      apply elem_of_app. right. left. }
    rewrite (getitem_ok out x c).
    2:{ by rewrite HI, decide_False. }
    cbn [bind]. rewrite (truediv_ok c n Hn). cbn [bind].
    eexists; split; [done|]. intros k.
    destruct (decide (k = x)) as [->|Hne].
    + rewrite lookup_insert_eq, decide_True, Hc; [done|].
      apply elem_of_app. right. left.
    + rewrite lookup_insert_ne by done. rewrite HI.
      destruct (decide (k ∈ done)) as [Hin|Hnin].
      * rewrite decide_True; [done|]. apply elem_of_app. by left.
      * rewrite decide_False; [done|]. intros Hin.
        apply elem_of_app in Hin as [?|Hin]; [done|].
        apply list_elem_of_singleton in Hin. done.
  - rewrite Hout. f_equal. apply map_eq. intros k.
    rewrite HI, lookup_fmap.
    destruct (decide (k ∈ keys output)) as [Hin|Hnin]; [done|].
    rewrite elem_of_keys, elem_of_dom in Hnin.
    destruct (output !! k); [|done]. exfalso. eauto.
Qed.

(** The same loop when [n] is zero and there is a key to divide. *)
Lemma divide_loop_zero (output : gmap string Q) (n : Q) :
  output ≠ ∅ →
  n == 0 →
  for_each (keys output)
    (λ output key,
       c <- getitem output key ;;
       v <- truediv c n ;;
       Ok (<[key := v]> output))
    output
  = Raise ZeroDivisionError.
Proof.
  intros Hne Hn.
  destruct (keys output) as [|k ks] eqn:Hks.
  { apply fmap_nil_inv, map_to_list_empty_iff in Hks. done. }
  assert (is_Some (output !! k)) as [c Hc].
  { apply elem_of_dom, elem_of_keys. rewrite Hks. left. }
  cbn [for_each]. rewrite (getitem_ok output k c Hc). cbn [bind].
  by rewrite (truediv_zero c n Hn).
Qed.

Lemma keys_nonempty {V : Type} (d : gmap string V) : d ≠ ∅ → keys d ≠ [].
Proof.
  intros Hne Hks. by apply fmap_nil_inv, map_to_list_empty_iff in Hks.
Qed.

(** The state of [sample_pagerank] before the last loop: the visit
    counts.  There are as many recorded visits as rounds of the loop over
    [range(1, n)]. *)
Lemma sample_pagerank_counts (corpus : gmap string (gset string)) (d : Q)
    (n : Z) (r : nat) (us : Z → Q) :
  closed corpus →
  corpus ≠ ∅ →
  ∃ counts,
    sample_pagerank corpus d n r us
      = for_each (keys counts)
          (λ output key,
             c <- getitem output key ;;
             v <- truediv c (inject_Z n) ;;
             Ok (<[key := v]> output))
          counts
    ∧ dom counts = dom corpus
    ∧ total counts == inject_Z (Z.of_nat (Z.to_nat (n - 1)))
    ∧ ∀ k, 0 <= rank counts k.
Proof.
  intros Hclosed Hne. unfold sample_pagerank.
  destruct (random_choice_ok r (keys corpus) (keys_nonempty corpus Hne))
    as (first & -> & Hfirst).
  cbn [bind]. apply elem_of_keys in Hfirst.
  destruct (for_each_fill (Ok 0) 0 (keys corpus) ∅) as (zeros & Hz & Hzeros);
    [done|].
  cbn [bind] in Hz. rewrite Hz. cbn [bind].
  assert (dom zeros = dom corpus) as Hdom.
  { apply set_eq. intros k. rewrite elem_of_dom, Hzeros.
    destruct (decide (k ∈ keys corpus)) as [Hin|Hnin].
    - apply elem_of_keys in Hin. split; eauto.
    - rewrite elem_of_keys in Hnin. rewrite lookup_empty.
      split; [by intros [? ?]|done]. }
  assert (∀ k, rank zeros k = 0) as Hrank.
  { intros k. unfold rank. rewrite Hzeros.
    destruct (decide (k ∈ keys corpus)); [done|]. by rewrite lookup_empty. }
  destruct (sample_loop_ok corpus d us (range 1 n) first zeros)
    as (st & -> & _ & Hst2 & Htot & Hpos); try done.
  { intros k. rewrite Hrank. lra. }
  cbn [bind]. exists st.2. split; [done|]. split; [done|]. split; [|done].
  rewrite Htot, length_range, total_zero.
  - lra.
  - intros k v Hk. specialize (Hrank k). unfold rank in Hrank.
    rewrite Hk in Hrank. simpl in Hrank. by rewrite Hrank.
Qed.

Lemma inject_Z_pred (n : Z) :
  (1 <= n)%Z → inject_Z (Z.of_nat (Z.to_nat (n - 1))) == inject_Z n - 1.
Proof.
  intros Hn. rewrite Z2Nat.id by lia.
  unfold Z.sub. rewrite inject_Z_plus, inject_Z_opp.
  change (inject_Z 1) with 1. lra.
Qed.

Lemma inject_Z_nonzero (n : Z) : n ≠ 0%Z → ¬ inject_Z n == 0.
Proof. intros Hn Heq. unfold Qeq in Heq. simpl in Heq. lia. Qed.

Lemma rank_fmap (f : Q → Q) (m : gmap string Q) (k : string) :
  k ∈ dom m → rank (f <$> m) k = f (rank m k).
Proof.
  intros Hk. apply elem_of_dom in Hk as [v Hv].
  unfold rank. by rewrite lookup_fmap, Hv.
Qed.

(** A value of a distribution without negative values is at most the
    total. *)
Lemma rank_le_total (m : gmap string Q) (k : string) :
  (∀ k, 0 <= rank m k) → rank m k <= total m.
Proof.
  intros Hpos. destruct (m !! k) as [v|] eqn:Hk.
  - rewrite (total_delete m k v Hk). unfold rank at 1. rewrite Hk. simpl.
    assert (0 <= total (delete k m)); [|lra].
    rewrite total_keys. apply Qsum_nonneg. intros k' Hk'.
    apply elem_of_keys, elem_of_dom in Hk' as [v' Hv'].
    apply lookup_delete_Some in Hv' as [Hne Hv'].
    unfold rank. rewrite lookup_delete_ne by done. apply Hpos.
  - unfold rank at 1. rewrite Hk. simpl.
    rewrite total_keys. by apply Qsum_nonneg.
Qed.

(** What [sample_pagerank] returns when [n] is not zero: the visit counts
    divided by [n]. *)
Lemma sample_pagerank_result (corpus : gmap string (gset string)) (d : Q)
    (n : Z) (r : nat) (us : Z → Q) :
  closed corpus →
  corpus ≠ ∅ →
  n ≠ 0%Z →
  ∃ counts,
    sample_pagerank corpus d n r us = Ok ((λ c, c / inject_Z n) <$> counts)
    ∧ dom counts = dom corpus
    ∧ total counts == inject_Z (Z.of_nat (Z.to_nat (n - 1)))
    ∧ ∀ k, 0 <= rank counts k.
Proof.
  intros Hclosed Hne Hn.
  destruct (sample_pagerank_counts corpus d n r us Hclosed Hne)
    as (counts & Hsp & Hrest).
  exists counts. split; [|done].
  rewrite Hsp. apply divide_loop_ok. by apply inject_Z_nonzero.
Qed.

(** C1. The program does not meet the claim: for every non-empty graph
    and every [n >= 1], whatever the random draws, [sample_pagerank]
    records [n - 1] visits in its [n - 1] rounds, one short of [n], so the
    values it returns sum to [(n - 1) / n] and not to 1. *)
Theorem sample_pagerank_visits (corpus : gmap string (gset string)) (d : Q)
    (n : Z) (r : nat) (us : Z → Q) :
  closed corpus →
  corpus ≠ ∅ →
  (1 <= n)%Z →
  ∃ counts output,
    sample_pagerank corpus d n r us = Ok output
    ∧ output = (λ c, c / inject_Z n) <$> counts
    ∧ total counts == inject_Z n - 1
    ∧ total output == (inject_Z n - 1) / inject_Z n
    ∧ ¬ total output == 1.
Proof.
  intros Hclosed Hne Hn.
  destruct (sample_pagerank_result corpus d n r us Hclosed Hne ltac:(lia))
    as (counts & Hsp & Hdom & Htot & Hpos).
  rewrite (inject_Z_pred n Hn) in Htot.
  assert (0 < inject_Z n) as Hn0.
  { change 0 with (inject_Z 0). rewrite <- Zlt_Qlt. lia. }
  assert (total ((λ c, c / inject_Z n) <$> counts)
          == (inject_Z n - 1) / inject_Z n) as Hsum.
  { by rewrite total_div, Htot. }
  exists counts, ((λ c, c / inject_Z n) <$> counts).
  repeat split; try done.
  rewrite Hsum. intros Hone.
  assert ((inject_Z n - 1) / inject_Z n * inject_Z n == 1 * inject_Z n)
    as Hmul by (by rewrite Hone).
  assert (inject_Z n - 1 == (inject_Z n - 1) / inject_Z n * inject_Z n)
    by (field; lra).
  lra.
Qed.

Lemma sample_pagerank_visits_witness :
  ∃ counts output,
    sample_pagerank sample_corpus DAMPING 5 0 (λ _, 1 # 2) = Ok output
    ∧ output = (λ c, c / inject_Z 5) <$> counts
    ∧ total counts == inject_Z 5 - 1
    ∧ total output == (inject_Z 5 - 1) / inject_Z 5
    ∧ ¬ total output == 1.
Proof.
  apply (sample_pagerank_visits sample_corpus DAMPING 5 0 (λ _, 1 # 2)).
  - apply (bool_decide_unpack _). vm_compute. exact I.
  - apply (bool_decide_unpack _). vm_compute. exact I.
  - lia.
Defined.

(** C6. The program does not meet the claim: with [n = 1] the loop over
    [range(1, 1)] never runs, so for every non-empty graph
    [sample_pagerank] returns the distribution that is 0 on every node;
    it is one-hot on no node of the graph. *)
Theorem sample_pagerank_one (corpus : gmap string (gset string)) (d : Q)
    (r : nat) (us : Z → Q) :
  closed corpus →
  corpus ≠ ∅ →
  ∃ output,
    sample_pagerank corpus d 1 r us = Ok output
    ∧ dom output = dom corpus
    ∧ (∀ key, rank output key == 0)
    ∧ ∀ node, node ∈ dom corpus → ¬ one_hot node output.
Proof.
  intros Hclosed Hne.
  destruct (sample_pagerank_result corpus d 1 r us Hclosed Hne ltac:(lia))
    as (counts & Hsp & Hdom & Htot & Hpos).
  change (inject_Z (Z.of_nat (Z.to_nat (1 - 1)))) with 0 in Htot.
  exists ((λ c, c / inject_Z 1) <$> counts).
  assert (∀ key, rank ((λ c, c / inject_Z 1) <$> counts) key == 0) as Hzero.
  { intros key. destruct (decide (key ∈ dom counts)) as [Hin|Hnin].
    - rewrite rank_fmap by done.
      pose proof (rank_le_total counts key Hpos). specialize (Hpos key).
      assert (rank counts key == 0) as -> by lra. reflexivity.
    - unfold rank. rewrite lookup_fmap.
      apply not_elem_of_dom in Hnin. rewrite Hnin. reflexivity. }
  split; [done|]. split; [by rewrite dom_fmap_L|]. split; [done|].
  intros node Hnode Hhot.
  specialize (Hhot node). rewrite dom_fmap_L, Hdom in Hhot.
  specialize (Hhot Hnode). rewrite decide_True in Hhot by done.
  rewrite Hzero in Hhot. lra.
Qed.

Lemma sample_pagerank_one_witness :
  ∃ output,
    sample_pagerank sample_corpus DAMPING 1 0 (λ _, 1 # 2) = Ok output
    ∧ dom output = dom sample_corpus
    ∧ (∀ key, rank output key == 0)
    ∧ ∀ node, node ∈ dom sample_corpus → ¬ one_hot node output.
Proof.
  apply (sample_pagerank_one sample_corpus DAMPING 0 (λ _, 1 # 2)).
  - apply (bool_decide_unpack _). vm_compute. exact I.
  - apply (bool_decide_unpack _). vm_compute. exact I.
Defined.

(** ** [iterate_pagerank] *)

Lemma Qlt_bool_iff (x y : Q) : Qlt_bool x y = true ↔ x < y.
Proof.
  unfold Qlt_bool. rewrite negb_true_iff. split.
  - intros H. apply Qnot_le_lt. intros Hle.
    apply Qle_bool_iff in Hle. congruence.
  - intros H. destruct (Qle_bool y x) eqn:E; [|done].
    apply Qle_bool_iff in E. lra.
Qed.

(** The inner loop adds up the contributions of the pages of the graph. *)
Lemma summation_loop (corpus : gmap string (gset string))
    (currentRank : gmap string Q) (key : string) (l : list string) (s0 : Q) :
  (∀ i, i ∈ l → i ∈ dom corpus) →
  dom corpus ⊆ dom currentRank →
  ∃ s, for_each l (summation_step corpus currentRank (len corpus) key) s0
       = Ok s
     ∧ s == s0 + Qsum ((λ i, contribution corpus currentRank i key) <$> l).
Proof.
  intros Hl Hsub. revert s0.
  induction l as [|i l IH]; intros s0.
  - exists s0. split; [done|]. csimpl. lra.
  - assert (i ∈ dom corpus) as Hi by (apply Hl; left).
    pose proof (len_nonzero corpus i Hi) as HN.
    apply elem_of_dom in Hi as Hlinks. destruct Hlinks as [links Hlinks].
    assert (is_Some (currentRank !! i)) as [ci Hci].
    { by apply elem_of_dom, Hsub. }
    assert (∃ s1, summation_step corpus currentRank (len corpus) key s0 i
                  = Ok s1
                ∧ s1 == s0 + contribution corpus currentRank i key)
      as (s1 & Hs1 & Hs1eq).
    { unfold summation_step, contribution, rank.
      rewrite (getitem_ok corpus i links Hlinks), Hlinks, Hci.
      cbn [bind default]. rewrite size_eqb_empty.
      destruct (decide (key ∈ links)) as [Hin|Hnin].
      - rewrite !bool_decide_eq_true_2 by done.
        rewrite (getitem_ok currentRank i ci Hci). cbn [bind].
        rewrite truediv_ok.
        + cbn [bind]. eexists. split; [done|]. reflexivity.
        + apply len_set_nonzero. intros ->. by apply not_elem_of_empty in Hin.
      - rewrite !(bool_decide_eq_false_2 (key ∈ links)) by done.
        destruct (decide (links = ∅)) as [Hempty|Hne].
        + rewrite !bool_decide_eq_true_2 by done.
          rewrite (getitem_ok currentRank i ci Hci). cbn [bind].
          rewrite truediv_ok by done. cbn [bind].
          eexists. split; [done|]. reflexivity.
        + rewrite !bool_decide_eq_false_2 by done.
          eexists. split; [done|]. lra. }
    destruct (IH (λ j Hj, Hl j (list_elem_of_further _ _ _ Hj)) s1)
      as (s & Hs & Hseq).
    exists s. split.
    + cbn [for_each]. rewrite Hs1. cbn [bind]. done.
    + rewrite Hseq, Hs1eq. csimpl. lra.
Qed.

(** One pass of the recurrence: [newRank] has the keys of [currentRank]
    and, at each of them, the value of the recurrence. *)
Lemma new_rank_ok (corpus : gmap string (gset string)) (d : Q)
    (currentRank : gmap string Q) :
  dom currentRank = dom corpus →
  ∃ newRank,
    new_rank corpus d (len corpus) currentRank = Ok newRank
    ∧ dom newRank = dom corpus
    ∧ ∀ p, p ∈ dom corpus →
        rank newRank p == recurrence corpus d currentRank p.
Proof.
  intros Hdom.
  destruct (for_each_inv
    (λ (done : list string) (newRank : gmap string Q),
       ∀ k, if decide (k ∈ done)
            then ∃ v, newRank !! k = Some v
                    ∧ v == recurrence corpus d currentRank k
            else newRank !! k = None)
    (λ newRank key,
       summation <- for_each (keys corpus)
         (summation_step corpus currentRank (len corpus) key) 0 ;;
       base <- truediv (1 - d) (len corpus) ;;
       Ok (<[key := base + d * summation]> newRank))
    (keys currentRank) ∅) as (newRank & Hnew & HI).
  - intros k. rewrite decide_False by apply not_elem_of_nil.
    apply lookup_empty.
  - intros done x rest newRank Hl HI.
    assert (x ∈ dom corpus) as Hx.
    { rewrite <- Hdom. apply elem_of_keys. rewrite Hl.
      apply elem_of_app. right. left. }
    destruct (summation_loop corpus currentRank x (keys corpus) 0)
      as (s & -> & Hs).
    { intros i. apply elem_of_keys. }
    { by rewrite Hdom. }
    cbn [bind]. rewrite truediv_ok by (by eapply len_nonzero). cbn [bind].
    eexists. split; [done|]. intros k.
    destruct (decide (k = x)) as [->|Hne].
    + rewrite decide_True by (apply elem_of_app; right; left).
      rewrite lookup_insert_eq. eexists. split; [done|].
      unfold recurrence. rewrite Hs. lra.
    + rewrite lookup_insert_ne by done. specialize (HI k).
      destruct (decide (k ∈ done)) as [Hin|Hnin].
      * rewrite decide_True; [done|]. apply elem_of_app. by left.
      * rewrite decide_False; [done|]. intros Hin.
        apply elem_of_app in Hin as [?|Hin]; [done|].
        apply list_elem_of_singleton in Hin. done.
  - exists newRank. split; [done|]. split.
    + apply set_eq. intros k. specialize (HI k).
      rewrite <- Hdom, <- (elem_of_keys currentRank), elem_of_dom.
      destruct (decide (k ∈ keys currentRank)) as [Hin|Hnin].
      * destruct HI as (v & -> & _). split; eauto.
      * rewrite HI. split; [by intros [? ?]|done].
    + intros p Hp. specialize (HI p).
      rewrite <- Hdom, <- elem_of_keys in Hp.
      rewrite decide_True in HI by done. destruct HI as (v & Hv & Heq).
      unfold rank. rewrite Hv. done.
Qed.

(** The loop that builds [diff]. *)
Lemma differences_loop (currentRank newRank : gmap string Q)
    (l : list string) (acc : list Q) :
  (∀ k, k ∈ l → k ∈ dom currentRank ∧ k ∈ dom newRank) →
  for_each l
    (λ diff key,
       c <- getitem currentRank key ;;
       n <- getitem newRank key ;;
       Ok (diff ++ [Qabs (c - n)]))
    acc
  = Ok (acc ++ ((λ key, Qabs (rank currentRank key - rank newRank key)) <$> l)).
Proof.
  revert acc. induction l as [|k l IH]; intros acc Hl; csimpl.
  - by rewrite app_nil_r.
  - destruct (Hl k) as [Hc Hn]; [left|].
    apply elem_of_dom in Hc as [c Hc]. apply elem_of_dom in Hn as [n Hn].
    rewrite (getitem_ok _ _ _ Hc), (getitem_ok _ _ _ Hn). cbn [bind].
    rewrite IH by (intros k' Hk'; apply Hl; by right).
    unfold rank. rewrite Hc, Hn. simpl. by rewrite <- app_assoc.
Qed.

Lemma differences_ok (currentRank newRank : gmap string Q) :
  dom currentRank = dom newRank →
  differences currentRank newRank
  = Ok ((λ key, Qabs (rank currentRank key - rank newRank key))
          <$> keys currentRank).
Proof.
  intros Hdom. unfold differences. rewrite differences_loop; [done|].
  intros k Hk. apply elem_of_keys in Hk. by rewrite <- Hdom.
Qed.

(** The test of the loop is the convergence condition at the program's
    threshold. *)
Lemma all_below_converged (currentRank newRank : gmap string Q) :
  all_below ((λ key, Qabs (rank currentRank key - rank newRank key))
               <$> keys currentRank) = true
  ↔ converged threshold currentRank newRank.
Proof.
  unfold all_below, converged. rewrite forallb_forall. split.
  - intros H key Hkey. apply Qlt_bool_iff, H, list_elem_of_In.
    apply list_elem_of_fmap. exists key. split; [done|].
    by apply elem_of_keys.
  - intros H x Hx. apply list_elem_of_In, list_elem_of_fmap in Hx
      as (key & -> & Hkey).
    apply Qlt_bool_iff, H. by apply elem_of_keys.
Qed.

(** One round of the [while] loop. *)
Lemma iterate_loop_round (corpus : gmap string (gset string)) (d : Q)
    (currentRank : gmap string Q) :
  dom currentRank = dom corpus →
  ∃ newRank,
    new_rank corpus d (len corpus) currentRank = Ok newRank
    ∧ dom newRank = dom corpus
    ∧ (∀ p, p ∈ dom corpus →
         rank newRank p == recurrence corpus d currentRank p)
    ∧ (converged threshold currentRank newRank →
       ∀ fuel, iterate_loop (S fuel) corpus d (len corpus) currentRank
               = Some (Ok newRank))
    ∧ (¬ converged threshold currentRank newRank →
       ∀ fuel, iterate_loop (S fuel) corpus d (len corpus) currentRank
               = iterate_loop fuel corpus d (len corpus) newRank).
Proof.
  intros Hdom.
  destruct (new_rank_ok corpus d currentRank Hdom)
    as (newRank & Hnew & Hdom' & Hrec).
  exists newRank. split; [done|]. split; [done|]. split; [done|].
  pose proof (differences_ok currentRank newRank ltac:(congruence)) as Hdiff.
  pose proof (all_below_converged currentRank newRank) as Hall.
  split; intros Hconv fuel; cbn [iterate_loop]; rewrite Hnew, Hdiff.
  - apply Hall in Hconv. by rewrite Hconv.
  - destruct (all_below _) eqn:E; [|done]. exfalso. by apply Hconv, Hall.
Qed.

(** The initial state gives every node the rank [1/N]. *)
Lemma initial_rank_ok (corpus : gmap string (gset string)) :
  ∃ currentRank,
    initial_rank corpus (len corpus) = Ok currentRank
    ∧ dom currentRank = dom corpus
    ∧ ∀ k, k ∈ dom corpus → currentRank !! k = Some (1 / len corpus).
Proof.
  destruct (for_each_fill (truediv 1 (len corpus)) (1 / len corpus)
              (keys corpus) ∅) as (cur & Hcur & Hlookup).
  { intros Hne. apply truediv_ok.
    destruct (keys corpus) as [|k ks] eqn:Hks; [done|].
    apply (len_nonzero corpus k), elem_of_keys. rewrite Hks. left. }
  exists cur. split; [done|]. split.
  - apply set_eq. intros k. rewrite elem_of_dom, Hlookup.
    destruct (decide (k ∈ keys corpus)) as [Hin|Hnin].
    + apply elem_of_keys in Hin. split; eauto.
    + rewrite elem_of_keys in Hnin. rewrite lookup_empty.
      split; [by intros [? ?]|done].
  - intros k Hk. rewrite Hlookup, decide_True; [done|]. by apply elem_of_keys.
Qed.

(** One round of the [while] loop, by cases on its test. *)
Lemma iterate_loop_cases (corpus : gmap string (gset string)) (d : Q)
    (currentRank : gmap string Q) :
  dom currentRank = dom corpus →
  ∃ newRank,
    new_rank corpus d (len corpus) currentRank = Ok newRank
    ∧ dom newRank = dom corpus
    ∧ (∀ p, p ∈ dom corpus →
         rank newRank p == recurrence corpus d currentRank p)
    ∧ ((converged threshold currentRank newRank
        ∧ ∀ fuel, iterate_loop (S fuel) corpus d (len corpus) currentRank
                  = Some (Ok newRank))
       ∨ (¬ converged threshold currentRank newRank
          ∧ ∀ fuel, iterate_loop (S fuel) corpus d (len corpus) currentRank
                    = iterate_loop fuel corpus d (len corpus) newRank)).
Proof.
  intros Hdom.
  destruct (iterate_loop_round corpus d currentRank Hdom)
    as (newRank & Hnew & Hdom' & Hrec & Hstop & Hgo).
  exists newRank. split; [done|]. split; [done|]. split; [done|].
  pose proof (all_below_converged currentRank newRank) as Hall.
  destruct (all_below _) eqn:E.
  - left. assert (converged threshold currentRank newRank) as Hconv
      by (by apply Hall).
    split; [done|]. by apply Hstop.
  - right. assert (¬ converged threshold currentRank newRank) as Hconv.
    { intros Hconv. apply Hall in Hconv. congruence. }
    split; [done|]. by apply Hgo.
Qed.

(** C5. [iterate_pagerank] starts its loop from the state that gives
    every node the rank [1/N].  From every state over the nodes of the
    graph, one pass of the loop computes [newRank], whose value at each
    node [p] is [(1-d)/N + d * sum over i of contribution(i, p)], the
    recurrence; the loop then returns this [newRank] when the ranks have
    converged, and otherwise runs its next pass from this [newRank]. *)
Theorem iterate_pagerank_recurrence (corpus : gmap string (gset string))
    (d : Q) :
  ∃ currentRank,
    initial_rank corpus (len corpus) = Ok currentRank
    ∧ dom currentRank = dom corpus
    ∧ (∀ p, p ∈ dom corpus → currentRank !! p = Some (1 / len corpus))
    ∧ (∀ fuel, iterate_pagerank fuel corpus d
               = iterate_loop fuel corpus d (len corpus) currentRank)
    ∧ ∀ current, dom current = dom corpus →
        ∃ newRank,
          new_rank corpus d (len corpus) current = Ok newRank
          ∧ dom newRank = dom corpus
          ∧ (∀ p, p ∈ dom corpus →
               rank newRank p == recurrence corpus d current p)
          ∧ ((converged threshold current newRank
              ∧ ∀ fuel,
                  iterate_loop (S fuel) corpus d (len corpus) current
                  = Some (Ok newRank))
             ∨ (¬ converged threshold current newRank
                ∧ ∀ fuel,
                    iterate_loop (S fuel) corpus d (len corpus) current
                    = iterate_loop fuel corpus d (len corpus) newRank)).
Proof.
  destruct (initial_rank_ok corpus) as (cur & Hinit & Hdom & Hcur).
  exists cur. split; [done|]. split; [done|]. split; [done|]. split.
  - intros fuel. unfold iterate_pagerank. by rewrite Hinit.
  - intros current Hcurrent. by apply iterate_loop_cases.
Qed.

(** C2, as the program has it.  One pass of the loop from a state over the
    nodes of the graph computes [newRank]; the loop stops and returns
    [newRank] when every node's rank moved by strictly less than 0.0015
    (the program's threshold, not 0.001), all nodes at once, and otherwise
    goes on from [newRank]. *)
Theorem iterate_pagerank_stop (corpus : gmap string (gset string)) (d : Q)
    (currentRank : gmap string Q) :
  dom currentRank = dom corpus →
  ∃ newRank,
    new_rank corpus d (len corpus) currentRank = Ok newRank
    ∧ (converged 0.0015 currentRank newRank →
       ∀ fuel, iterate_loop (S fuel) corpus d (len corpus) currentRank
               = Some (Ok newRank))
    ∧ (¬ converged 0.0015 currentRank newRank →
       ∀ fuel, iterate_loop (S fuel) corpus d (len corpus) currentRank
               = iterate_loop fuel corpus d (len corpus) newRank).
Proof.
  intros Hdom.
  destruct (iterate_loop_round corpus d currentRank Hdom)
    as (newRank & Hnew & _ & _ & Hstop & Hgo).
  exists newRank. auto.
Qed.

Lemma iterate_pagerank_stop_witness :
  ∃ newRank,
    new_rank chain2 DAMPING (len chain2) {["a" := 1 # 2; "b" := 1 # 2]}
      = Ok newRank
    ∧ (converged 0.0015 {["a" := 1 # 2; "b" := 1 # 2]} newRank →
       ∀ fuel, iterate_loop (S fuel) chain2 DAMPING (len chain2)
                 {["a" := 1 # 2; "b" := 1 # 2]}
               = Some (Ok newRank))
    ∧ (¬ converged 0.0015 {["a" := 1 # 2; "b" := 1 # 2]} newRank →
       ∀ fuel, iterate_loop (S fuel) chain2 DAMPING (len chain2)
                 {["a" := 1 # 2; "b" := 1 # 2]}
               = iterate_loop fuel chain2 DAMPING (len chain2) newRank).
Proof.
  apply (iterate_pagerank_stop chain2 DAMPING {["a" := 1 # 2; "b" := 1 # 2]}).
  vm_compute. reflexivity.
Defined.

(** C2 as stated fails.  On the graph [a -> b] with [b] a sink and the
    damping factor 0.005, the first pass moves both ranks by 0.00125: the
    program stops there and returns [newRank], although the differences
    are not below 0.001. *)
Lemma iterate_pagerank_stop_counterexample :
  initial_rank chain2 (len chain2) = Ok {["a" := 1 # 2; "b" := 1 # 2]}
  ∧ new_rank chain2 0.005 (len chain2) {["a" := 1 # 2; "b" := 1 # 2]}
    = Ok {["a" := 3990000 # 8000000; "b" := 8020000 # 16000000]}
  ∧ iterate_pagerank 1 chain2 0.005
    = Some (Ok {["a" := 3990000 # 8000000; "b" := 8020000 # 16000000]})
  ∧ ¬ converged spec_threshold {["a" := 1 # 2; "b" := 1 # 2]}
        {["a" := 3990000 # 8000000; "b" := 8020000 # 16000000]}.
Proof.
  split; [by vm_compute|]. split; [by vm_compute|]. split; [by vm_compute|].
  intros Hconv. specialize (Hconv "a").
  assert ("a" ∈ dom ({["a" := 1 # 2; "b" := 1 # 2]} : gmap string Q)) as Hin.
  { apply (bool_decide_unpack _). vm_compute. exact I. }
  specialize (Hconv Hin). vm_compute in Hconv. discriminate.
Qed.


(** ** The single-node graph *)

Lemma single_closed : closed single.
Proof. apply (bool_decide_unpack _). vm_compute. exact I. Qed.

Lemma single_nonempty : single ≠ ∅.
Proof. apply (bool_decide_unpack _). vm_compute. exact I. Qed.

Lemma dom_single : dom single = ({["a"]} : gset string).
Proof. unfold single. apply dom_singleton_L. Qed.

(** A distribution over the single node is determined by its total. *)
Lemma single_distribution (m : gmap string Q) :
  dom m = dom single → ∃ v, m = {["a" := v]} ∧ v == total m.
Proof.
  rewrite dom_single. intros Hdom.
  apply dom_singleton_inv_L in Hdom as [v ->]. exists v. split; [done|].
  unfold total. rewrite map_to_list_singleton. simpl. lra.
Qed.

(** C7. On the graph of a single node without links, [iterate_pagerank]
    returns the distribution that gives the node 1, but [sample_pagerank]
    does not: for every [n >= 1] it gives the node [(n - 1) / n], which is
    less than 1. *)
Theorem single_node_graph :
  (∀ d n r us, (1 <= n)%Z →
     ∃ v, sample_pagerank single d n r us = Ok {["a" := v]}
        ∧ v == (inject_Z n - 1) / inject_Z n
        ∧ v < 1)
  ∧ (∀ d fuel,
       ∃ v, iterate_pagerank (S fuel) single d = Some (Ok {["a" := v]})
          ∧ v == 1).
Proof.
  split.
  - intros d n r us Hn.
    destruct (sample_pagerank_result single d n r us
                single_closed single_nonempty ltac:(lia))
      as (counts & Hsp & Hdom & Htot & Hpos).
    rewrite (inject_Z_pred n Hn) in Htot.
    assert (0 < inject_Z n) as Hn0.
    { change 0 with (inject_Z 0). rewrite <- Zlt_Qlt. lia. }
    destruct (single_distribution ((λ c, c / inject_Z n) <$> counts))
      as (v & Hv & Hvtot).
    { by rewrite dom_fmap_L. }
    rewrite total_div, Htot in Hvtot.
    exists v. rewrite Hsp, Hv. split; [done|]. split; [done|].
    rewrite Hvtot. apply Qlt_shift_div_r; lra.
  - intros d fuel.
    destruct (initial_rank_ok single) as (cur & Hinit & Hdom & Hcur).
    destruct (iterate_loop_round single d cur Hdom)
      as (new & Hnew & Hdom' & Hrec & Hstop & _).
    assert ("a" ∈ dom single) as Ha by (rewrite dom_single; set_solver).
    assert (rank cur "a" == 1) as Hcur1.
    { unfold rank. rewrite (Hcur "a" Ha). reflexivity. }
    assert (rank new "a" == 1) as Hnew1.
    { rewrite (Hrec "a" Ha). unfold recurrence.
      change (keys single) with ["a"]. change (len single) with 1. csimpl.
      assert (contribution single cur "a" "a" = rank cur "a" / 1) as ->
        by reflexivity.
      rewrite Hcur1. field. }
    destruct (single_distribution new Hdom') as (v & Hv & Hvtot).
    exists v. unfold iterate_pagerank. rewrite Hinit, Hstop.
    + rewrite Hv. split; [done|]. rewrite Hv in Hnew1.
      unfold rank in Hnew1. by rewrite lookup_singleton_eq in Hnew1.
    + intros key Hkey. rewrite Hdom, dom_single in Hkey.
      apply elem_of_singleton in Hkey as ->.
      rewrite Hcur1, Hnew1. reflexivity.
Qed.

Lemma single_node_graph_witness :
  (∃ v, sample_pagerank single DAMPING 3 0 (λ _, 1 # 2) = Ok {["a" := v]}
      ∧ v == (inject_Z 3 - 1) / inject_Z 3
      ∧ v < 1)
  ∧ (∃ v, iterate_pagerank 1 single DAMPING = Some (Ok {["a" := v]})
        ∧ v == 1).
Proof.
  split.
  - apply (proj1 single_node_graph DAMPING 3%Z 0%nat (λ _, 1 # 2)). lia.
  - apply (proj2 single_node_graph DAMPING 0%nat).
Defined.

(** ** Arguments outside the preconditions *)

Lemma counts_nonempty (corpus : gmap string (gset string))
    (counts : gmap string Q) :
  corpus ≠ ∅ → dom counts = dom corpus → counts ≠ ∅.
Proof.
  intros Hne Hdom ->. rewrite dom_empty_L in Hdom.
  symmetry in Hdom. by apply dom_empty_inv_L in Hdom.
Qed.

(** C8, as the program has it.  The program checks none of its arguments;
    what happens is what the operations it runs do.  A page that is not a
    key of the graph (so any page, when the graph is empty) makes
    [transition_model] raise [KeyError].  On the empty graph
    [sample_pagerank] raises [IndexError]; on a non-empty graph it raises
    [ZeroDivisionError] for [n = 0], but for [n < 0] it returns the
    distribution that is 0 everywhere.  On the empty graph
    [iterate_pagerank] returns the empty distribution. *)
Theorem precondition_violations :
  (∀ corpus page d,
     corpus !! page = None → transition_model corpus page d = Raise KeyError)
  ∧ (∀ d n r us, sample_pagerank ∅ d n r us = Raise IndexError)
  ∧ (∀ corpus d r us,
       closed corpus → corpus ≠ ∅ →
       sample_pagerank corpus d 0 r us = Raise ZeroDivisionError)
  ∧ (∀ corpus d n r us,
       closed corpus → corpus ≠ ∅ → (n < 0)%Z →
       ∃ output, sample_pagerank corpus d n r us = Ok output
               ∧ dom output = dom corpus
               ∧ ∀ key, rank output key == 0)
  ∧ (∀ d fuel, iterate_pagerank (S fuel) ∅ d = Some (Ok ∅)).
Proof.
  split; [|split; [|split; [|split]]].
  - intros corpus page d Hpage. unfold transition_model.
    by rewrite (getitem_missing corpus page Hpage).
  - intros d n r us. unfold sample_pagerank, keys.
    by rewrite map_to_list_empty.
  - intros corpus d r us Hclosed Hne.
    destruct (sample_pagerank_counts corpus d 0 r us Hclosed Hne)
      as (counts & -> & Hdom & _).
    apply divide_loop_zero; [by eapply counts_nonempty|reflexivity].
  - intros corpus d n r us Hclosed Hne Hn.
    destruct (sample_pagerank_result corpus d n r us Hclosed Hne ltac:(lia))
      as (counts & Hsp & Hdom & Htot & Hpos).
    replace (Z.to_nat (n - 1)) with 0%nat in Htot by lia.
    change (inject_Z (Z.of_nat 0)) with 0 in Htot.
    exists ((λ c, c / inject_Z n) <$> counts).
    split; [done|]. split; [by rewrite dom_fmap_L|].
    intros key. destruct (decide (key ∈ dom counts)) as [Hin|Hnin].
    + rewrite rank_fmap by done.
      pose proof (rank_le_total counts key Hpos). specialize (Hpos key).
      assert (rank counts key == 0) as -> by lra.
      unfold Qdiv. ring.
    + unfold rank. rewrite lookup_fmap.
      apply not_elem_of_dom in Hnin. rewrite Hnin. reflexivity.
  - intros d fuel. reflexivity.
Qed.

Lemma precondition_violations_witness :
  ∃ output, sample_pagerank sample_corpus DAMPING (-1) 0 (λ _, 1 # 2) = Ok output
          ∧ dom output = dom sample_corpus
          ∧ ∀ key, rank output key == 0.
Proof.
  apply (proj1 (proj2 (proj2 (proj2 precondition_violations)))
           sample_corpus DAMPING (-1)%Z 0%nat (λ _, 1 # 2)).
  - apply (bool_decide_unpack _). vm_compute. exact I.
  - apply (bool_decide_unpack _). vm_compute. exact I.
  - lia.
Defined.

(** C8 as stated fails: a negative sample count, and the empty graph
    given to [iterate_pagerank], produce a result and no error. *)
Lemma precondition_violations_counterexample :
  sample_pagerank sample_corpus DAMPING (-1) 0 (λ _, 1 # 2)
    = Ok {["1.html" := 0; "2.html" := 0; "3.html" := 0]}
  ∧ iterate_pagerank 1 ∅ DAMPING = Some (Ok ∅).
Proof. split; by vm_compute. Qed.

(** ** Convergence of the iteration *)

Lemma Qsum_minus {A : Type} (f g : A → Q) (l : list A) :
  Qsum ((λ x, f x - g x) <$> l) == Qsum (f <$> l) - Qsum (g <$> l).
Proof.
  induction l as [|x l IH]; csimpl; [lra|]. rewrite IH. lra.
Qed.

Lemma Qabs_Qsum {A : Type} (f : A → Q) (l : list A) :
  Qabs (Qsum (f <$> l)) <= Qsum ((λ x, Qabs (f x)) <$> l).
Proof.
  induction l as [|x l IH]; csimpl.
  - apply Qle_refl.
  - eapply Qle_trans; [apply Qabs_triangle|]. lra.
Qed.

Lemma Qsum_elem_le {A : Type} (f : A → Q) (l : list A) (x : A) :
  (∀ y, y ∈ l → 0 <= f y) → x ∈ l → f x <= Qsum (f <$> l).
Proof.
  induction l as [|y l IH]; intros Hpos Hx.
  - by apply elem_of_nil in Hx.
  - csimpl.
    assert (0 <= f y) by (apply Hpos; left).
    assert (0 <= Qsum (f <$> l)).
    { apply Qsum_nonneg. intros z Hz. apply Hpos. by right. }
    apply elem_of_cons in Hx as [->|Hx]; [lra|].
    assert (f x <= Qsum (f <$> l)); [|lra].
    apply IH; [|done]. intros z Hz. apply Hpos. by right.
Qed.

Lemma Qmult_le_left (x y z : Q) : 0 <= z → x <= y → z * x <= z * y.
Proof.
  intros Hz Hxy. rewrite (Qmult_comm z x), (Qmult_comm z y).
  by apply Qmult_le_compat_r.
Qed.

Lemma inject_nat_nonneg (n : nat) : 0 <= inject_Z (Z.of_nat n).
Proof. change 0 with (inject_Z 0). rewrite <- Zle_Qle. lia. Qed.

Lemma Qdiv_nonneg (x y : Q) : 0 <= x → 0 <= y → 0 <= x / y.
Proof.
  intros Hx Hy. unfold Qdiv. apply Qmult_le_0_compat; [done|].
  by apply Qinv_le_0_compat.
Qed.

Lemma weight_nonneg (corpus : gmap string (gset string)) (i p : string) :
  0 <= weight corpus i p.
Proof.
  unfold weight. cbn zeta.
  destruct (bool_decide _); [|destruct (bool_decide _)].
  - apply Qdiv_nonneg; [lra|apply inject_nat_nonneg].
  - apply Qdiv_nonneg; [lra|apply inject_nat_nonneg].
  - lra.
Qed.

(** A contribution is the weight times the rank of the contributing
    page. *)
Lemma contribution_weight (corpus : gmap string (gset string))
    (currentRank : gmap string Q) (i p : string) :
  contribution corpus currentRank i p
  == weight corpus i p * rank currentRank i.
Proof.
  unfold contribution, weight. cbn zeta.
  destruct (bool_decide _); [|destruct (bool_decide _)];
    unfold Qdiv; ring.
Qed.

(** A page hands out all of its rank: the weights it gives sum to 1. *)
Lemma weight_column (corpus : gmap string (gset string)) (i : string) :
  closed corpus →
  i ∈ dom corpus →
  Qsum ((λ p, weight corpus i p) <$> keys corpus) == 1.
Proof.
  intros Hclosed Hi.
  pose proof (len_nonzero corpus i Hi) as HN.
  apply elem_of_dom in Hi as [links Hlinks].
  pose proof (Hclosed i links Hlinks) as Hsub. simpl in Hsub.
  unfold weight. rewrite Hlinks.
  change (default ∅ (Some links)) with links. cbn zeta.
  destruct (decide (links = ∅)) as [->|Hne].
  - rewrite (Qsum_ext _ (λ _, 1 / len corpus)).
    + rewrite Qsum_const, length_keys. fold (len corpus). by field.
    + intros p _. rewrite bool_decide_eq_false_2 by apply not_elem_of_empty.
      by rewrite bool_decide_eq_true_2.
  - pose proof (len_set_nonzero links Hne) as HL.
    rewrite (Qsum_ext _
      (λ p, if bool_decide (p ∈ links) then 1 / len_set links else 0)).
    + rewrite (Qsum_members (λ _, 1 / len_set links) links (keys corpus)).
      * rewrite Qsum_const.
        change (length (elements links)) with (size links).
        fold (len_set links). by field.
      * apply NoDup_keys.
      * intros k Hk. by apply elem_of_keys, Hsub.
    + intros p _. destruct (bool_decide (p ∈ links)); [reflexivity|].
      rewrite bool_decide_eq_false_2 by done. reflexivity.
Qed.

(** The difference of two passes, page by page. *)
Lemma recurrence_diff (corpus : gmap string (gset string)) (d : Q)
    (m1 m2 : gmap string Q) (p : string) :
  recurrence corpus d m1 p - recurrence corpus d m2 p
  == d * Qsum ((λ i, weight corpus i p * (rank m1 i - rank m2 i))
                 <$> keys corpus).
Proof.
  unfold recurrence.
  rewrite (Qsum_ext (λ i, weight corpus i p * (rank m1 i - rank m2 i))
             (λ i, contribution corpus m1 i p - contribution corpus m2 i p)).
  - rewrite Qsum_minus. ring.
  - intros i _. rewrite !contribution_weight. ring.
Qed.

(** One pass of the recurrence brings two states closer by the factor
    [d]. *)
Lemma recurrence_contracts (corpus : gmap string (gset string)) (d : Q)
    (m1 m2 new1 new2 : gmap string Q) :
  closed corpus →
  0 <= d →
  (∀ p, p ∈ dom corpus → rank new1 p == recurrence corpus d m1 p) →
  (∀ p, p ∈ dom corpus → rank new2 p == recurrence corpus d m2 p) →
  distance corpus new1 new2 <= d * distance corpus m1 m2.
Proof.
  intros Hclosed Hd H1 H2. unfold distance.
  eapply Qle_trans.
  { apply (Qsum_le _
      (λ p, d * Qsum ((λ i, weight corpus i p * Qabs (rank m1 i - rank m2 i))
                        <$> keys corpus))).
    intros p Hp. apply elem_of_keys in Hp.
    rewrite (H1 p Hp), (H2 p Hp), recurrence_diff.
    rewrite Qabs_Qmult, (Qabs_pos d Hd).
    apply Qmult_le_left; [done|].
    eapply Qle_trans; [apply Qabs_Qsum|].
    apply Qsum_le. intros i _.
    rewrite Qabs_Qmult, (Qabs_pos (weight corpus i p)); [apply Qle_refl|].
    apply weight_nonneg. }
  rewrite Qsum_scale.
  rewrite (Qsum_swap
    (λ p i, weight corpus i p * Qabs (rank m1 i - rank m2 i))).
  apply Qmult_le_left; [done|].
  apply Qsum_le. intros i Hi. apply elem_of_keys in Hi.
  rewrite (Qsum_ext _
    (λ p, Qabs (rank m1 i - rank m2 i) * weight corpus i p))
    by (intros; ring).
  rewrite Qsum_scale, (weight_column corpus i Hclosed Hi). lra.
Qed.

Lemma difference_le_distance (corpus : gmap string (gset string))
    (m1 m2 : gmap string Q) (p : string) :
  p ∈ dom corpus →
  Qabs (rank m1 p - rank m2 p) <= distance corpus m1 m2.
Proof.
  intros Hp. unfold distance.
  apply (Qsum_elem_le (λ p, Qabs (rank m1 p - rank m2 p))).
  - intros y _. apply Qabs_nonneg.
  - by apply elem_of_keys.
Qed.

Lemma Qpow_nonneg (d : Q) (k : nat) : 0 <= d → 0 <= Qpow d k.
Proof.
  intros Hd. induction k as [|k IH]; simpl; [lra|].
  by apply Qmult_le_0_compat.
Qed.





(** The recurrence keeps ranks non-negative. *)
Lemma recurrence_nonneg (corpus : gmap string (gset string)) (d : Q)
    (currentRank : gmap string Q) (p : string) :
  0 <= d → d <= 1 →
  (∀ k, 0 <= rank currentRank k) →
  0 <= recurrence corpus d currentRank p.
Proof.
  intros Hd Hd1 Hpos. unfold recurrence.
  assert (0 <= (1 - d) / len corpus).
  { apply Qdiv_nonneg; [lra|apply inject_nat_nonneg]. }
  assert (0 <= Qsum ((λ i, contribution corpus currentRank i p)
                       <$> keys corpus)) as Hsum.
  { apply Qsum_nonneg. intros i _. rewrite contribution_weight.
    apply Qmult_le_0_compat; [apply weight_nonneg|apply Hpos]. }
  pose proof (Qmult_le_0_compat d _ Hd Hsum). lra.
Qed.

Lemma new_rank_nonneg (corpus : gmap string (gset string)) (d : Q)
    (currentRank newRank : gmap string Q) :
  0 <= d → d <= 1 →
  dom newRank = dom corpus →
  (∀ p, p ∈ dom corpus →
     rank newRank p == recurrence corpus d currentRank p) →
  (∀ k, 0 <= rank currentRank k) →
  ∀ k, 0 <= rank newRank k.
Proof.
  intros Hd Hd1 Hdom Hrec Hpos k.
  destruct (decide (k ∈ dom corpus)) as [Hin|Hnin].
  - rewrite (Hrec k Hin). by apply recurrence_nonneg.
  - rewrite <- Hdom in Hnin. apply not_elem_of_dom in Hnin.
    unfold rank. rewrite Hnin. simpl. lra.
Qed.



(** ** Non-negative distributions over the nodes of the graph *)





(** ** The damping factor 1 *)






(** * Further properties of the code *)

(** ** [transition_model] *)

(** X1. In exact arithmetic (numbers are rationals here; the program's
    floating-point values agree up to rounding): for a page of a graph
    whose links stay inside the graph, [transition_model] returns a
    distribution whose values sum to 1, whatever the damping factor and
    whether the page is a sink or not. *)
Theorem transition_model_sums_to_one (corpus : gmap string (gset string))
    (page : string) (d : Q) :
  closed corpus →
  page ∈ dom corpus →
  ∃ output, transition_model corpus page d = Ok output ∧ total output == 1.
Proof.
  intros Hclosed Hpage. apply elem_of_dom in Hpage as [links Hlinks].
  pose proof (Hclosed page links Hlinks) as Hsub. simpl in Hsub.
  destruct (transition_model_lookup corpus page d links Hlinks Hsub)
    as (output & Htm & _).
  exists output. split; [done|].
  by apply (transition_model_total corpus page d links).
Qed.

Lemma transition_model_sums_to_one_witness :
  ∃ output, transition_model sample_corpus "1.html" DAMPING = Ok output
          ∧ total output == 1.
Proof.
  apply (transition_model_sums_to_one sample_corpus "1.html" DAMPING).
  - apply (bool_decide_unpack _). vm_compute. exact I.
  - apply (bool_decide_unpack _). vm_compute. exact I.
Defined.

(** [for pageLink in links: output[pageLink] += prob] when one of the
    links is not a key of [output]. *)
Lemma for_each_add_missing (prob : Q) (l : list string) (m : gmap string Q)
    (link : string) :
  link ∈ l → link ∉ dom m →
  for_each l
    (λ output pageLink,
       v <- getitem output pageLink ;;
       Ok (<[pageLink := v + prob]> output)) m
  = Raise KeyError.
Proof.
  revert m. induction l as [|x l IH]; intros m Hin Hmiss.
  - by apply elem_of_nil in Hin.
  - cbn [for_each]. destruct (m !! x) as [v|] eqn:Hx.
    + rewrite (getitem_ok m x v Hx). cbn [bind].
      apply elem_of_cons in Hin as [->|Hin].
      { exfalso. apply Hmiss. by eapply elem_of_dom_2. }
      apply IH; [done|]. rewrite dom_insert_L. intros Hl.
      apply elem_of_union in Hl as [Hl|Hl]; [|done].
      apply elem_of_singleton in Hl as ->.
      apply Hmiss. by eapply elem_of_dom_2.
    + by rewrite (getitem_missing m x Hx).
Qed.

(** A link that leaves the graph makes [transition_model] fail. *)
Lemma transition_model_missing_link (corpus : gmap string (gset string))
    (page link : string) (d : Q) (links : gset string) :
  corpus !! page = Some links →
  link ∈ links →
  link ∉ dom corpus →
  transition_model corpus page d = Raise KeyError.
Proof.
  intros Hpage Hlink Hmiss.
  assert (links ≠ ∅) as Hne by (intros ->; by apply not_elem_of_empty in Hlink).
  assert (page ∈ dom corpus) as Hdom by (by eapply elem_of_dom_2).
  unfold transition_model. rewrite (getitem_ok _ _ _ Hpage). cbn [bind].
  rewrite size_eqb_empty, bool_decide_eq_false_2 by done.
  destruct (for_each_fill (truediv (1 - d) (len corpus))
              ((1 - d) / len corpus) (keys corpus) ∅) as (out & -> & Hout).
  { intros _. apply truediv_ok. by eapply len_nonzero. }
  cbn [bind]. rewrite (truediv_ok d (len_set links))
    by (by apply len_set_nonzero).
  cbn [bind]. apply (for_each_add_missing _ _ _ link).
  - by apply elem_of_elements.
  - rewrite elem_of_dom, Hout, decide_False, lookup_empty.
    + by intros [? ?].
    + by rewrite elem_of_keys.
Qed.

(** X2. When the current page links to a page that is not a key of the
    graph, [transition_model] raises [KeyError] (at
    [output[pageLink] += prob]) instead of returning a distribution. *)
Theorem transition_model_dangling_link (corpus : gmap string (gset string))
    (page link : string) (d : Q) (links : gset string) :
  corpus !! page = Some links →
  link ∈ links →
  link ∉ dom corpus →
  transition_model corpus page d = Raise KeyError.
Proof. apply transition_model_missing_link. Qed.

Lemma transition_model_dangling_link_witness :
  transition_model dangling "a" DAMPING = Raise KeyError.
Proof.
  apply (transition_model_dangling_link dangling "a" "z" DAMPING {["b"; "z"]}).
  - reflexivity.
  - apply (bool_decide_unpack _). vm_compute. exact I.
  - apply (bool_decide_unpack _). vm_compute. exact I.
Defined.

(** ** [crawl] *)

(** The first loop keeps, for each file whose name ends in [.html], the
    links found in it, without the page itself. *)
Lemma crawl_extract_loop (findall : string → list string)
    (l : list (string * string)) (acc : gmap string (gset string)) :
  NoDup l.*1 →
  ∃ pages,
    for_each l
      (λ (pages : gmap string (gset string)) (file : string * string),
         let filename := file.1 in
         if negb (endswith filename ".html") then Ok pages else
         let contents := file.2 in
         let links := findall contents in
         Ok (<[filename := list_to_set links ∖ {[filename]}]> pages))
      acc = Ok pages
    ∧ ∀ f, pages !! f =
        match (list_to_map l : gmap string string) !! f with
        | Some c =>
            if endswith f ".html"
            then Some (list_to_set (findall c) ∖ {[f]})
            else acc !! f
        | None => acc !! f
        end.
Proof.
  revert acc. induction l as [|[f0 c0] l IH]; intros acc Hnd.
  - exists acc. split; [done|]. intros f.
    by rewrite list_to_map_nil, lookup_empty.
  - apply NoDup_cons in Hnd as [Hf0 Hnd]. cbn [for_each fst snd].
    destruct (endswith f0 ".html") eqn:Hhtml; cbn [negb bind].
    + destruct (IH (<[f0 := list_to_set (findall c0) ∖ {[f0]}]> acc) Hnd)
        as (pages & Hpages & Hlookup).
      exists pages. split; [done|]. intros f. rewrite Hlookup.
      rewrite list_to_map_cons.
      destruct (decide (f = f0)) as [->|Hne].
      * rewrite (not_elem_of_list_to_map_1 (M := gmap string) l f0 Hf0).
        by rewrite !lookup_insert_eq, Hhtml.
      * rewrite !lookup_insert_ne by done. done.
    + destruct (IH acc Hnd) as (pages & Hpages & Hlookup).
      exists pages. split; [done|]. intros f. rewrite Hlookup.
      rewrite list_to_map_cons.
      destruct (decide (f = f0)) as [->|Hne].
      * rewrite (not_elem_of_list_to_map_1 (M := gmap string) l f0 Hf0).
        by rewrite lookup_insert_eq, Hhtml.
      * rewrite lookup_insert_ne by done. done.
Qed.

Lemma crawl_extract_ok (findall : string → list string)
    (directory : gmap string string) :
  ∃ pages,
    crawl_extract findall directory = Ok pages
    ∧ ∀ f, pages !! f =
        match directory !! f with
        | Some c =>
            if endswith f ".html"
            then Some (list_to_set (findall c) ∖ {[f]})
            else None
        | None => None
        end.
Proof.
  destruct (crawl_extract_loop findall (map_to_list directory) ∅
              (NoDup_fst_map_to_list directory)) as (pages & Hpages & Hlookup).
  exists pages. split; [done|]. intros f.
  rewrite Hlookup, list_to_map_to_list, lookup_empty. done.
Qed.

(** The second loop filters every link set by the keys of the corpus. *)
Lemma crawl_restrict_ok (pages : gmap string (gset string)) :
  crawl_restrict pages
  = Ok ((λ links : gset string, filter (λ link, link ∈ dom pages) links)
          <$> pages).
Proof.
  pose proof (NoDup_keys pages) as Hnd. unfold crawl_restrict.
  destruct (for_each_inv
    (λ (done : list string) (cur : gmap string (gset string)),
       ∀ f, cur !! f =
         if decide (f ∈ done)
         then (λ links : gset string, filter (λ link, link ∈ dom pages) links)
                <$> pages !! f
         else pages !! f)
    (λ (pages : gmap string (gset string)) filename,
       links <- getitem pages filename ;;
       Ok (<[filename := filter (λ link, link ∈ dom pages) links]> pages))
    (keys pages) pages) as (out & Hout & HI).
  - intros f. rewrite decide_False; [done|]. apply not_elem_of_nil.
  - intros done x rest cur Hl HI.
    rewrite Hl in Hnd. apply NoDup_app in Hnd as (_ & Hdisj & _).
    assert (x ∉ done) as Hx.
    { intros Hin. apply (Hdisj x Hin). left. }
    assert (is_Some (pages !! x)) as [links Hlinks].
    { apply elem_of_dom, elem_of_keys. rewrite Hl.
      apply elem_of_app. right. left. }
    assert (dom cur = dom pages) as Hdom.
    { apply set_eq. intros f. rewrite !elem_of_dom, HI.
      destruct (decide (f ∈ done)); [|done]. by rewrite fmap_is_Some. }
    rewrite (getitem_ok cur x links).
    2:{ by rewrite HI, decide_False. }
    cbn [bind]. rewrite Hdom. eexists; split; [done|]. intros f.
    destruct (decide (f = x)) as [->|Hne].
    + rewrite lookup_insert_eq, decide_True, Hlinks; [done|].
      apply elem_of_app. right. left.
    + rewrite lookup_insert_ne by done. rewrite HI.
      destruct (decide (f ∈ done)) as [Hin|Hnin].
      * rewrite decide_True; [done|]. apply elem_of_app. by left.
      * rewrite decide_False; [done|]. intros Hin.
        apply elem_of_app in Hin as [?|Hin]; [done|].
        apply list_elem_of_singleton in Hin. done.
  - rewrite Hout. f_equal. apply map_eq. intros f.
    rewrite HI, lookup_fmap.
    destruct (decide (f ∈ keys pages)) as [Hin|Hnin]; [done|].
    rewrite elem_of_keys, elem_of_dom in Hnin.
    destruct (pages !! f); [|done]. exfalso. eauto.
Qed.

(** What [crawl] returns, page by page. *)
Lemma crawl_lookup (findall : string → list string)
    (directory : gmap string string) :
  ∃ pages,
    crawl findall directory = Ok pages
    ∧ ∀ f, pages !! f =
        match directory !! f with
        | Some c =>
            if endswith f ".html"
            then Some (filter (λ link, link ∈ dom pages)
                         (list_to_set (findall c) ∖ {[f]}))
            else None
        | None => None
        end.
Proof.
  destruct (crawl_extract_ok findall directory) as (pages & Hpages & Hlookup).
  unfold crawl. rewrite Hpages. cbn [bind]. rewrite crawl_restrict_ok.
  eexists. split; [done|]. intros f.
  rewrite dom_fmap_L, lookup_fmap, Hlookup.
  destruct (directory !! f) as [c|]; [|done].
  by destruct (endswith f ".html").
Qed.

(** X3. [crawl] returns a graph whose pages are exactly the files of the
    directory whose names end in [.html]; a page links to [link] exactly
    when [link] is another page of the graph and is among the links found
    in the text of the page. *)
Theorem crawl_graph (findall : string → list string)
    (directory : gmap string string) :
  ∃ pages,
    crawl findall directory = Ok pages
    ∧ (∀ f, f ∈ dom pages
            ↔ f ∈ dom directory ∧ endswith f ".html" = true)
    ∧ ∀ f links link,
        pages !! f = Some links →
        (link ∈ links
         ↔ link ∈ dom pages ∧ link ≠ f
           ∧ ∃ contents, directory !! f = Some contents
                       ∧ link ∈ findall contents).
Proof.
  destruct (crawl_lookup findall directory) as (pages & Hcrawl & Hlookup).
  exists pages. split; [done|]. split.
  - intros f. rewrite !elem_of_dom, Hlookup.
    destruct (directory !! f) as [c|].
    + destruct (endswith f ".html").
      * split; eauto.
      * split; [by intros [? ?]|by intros [_ ?]].
    + split; [by intros [? ?]|by intros [[? ?] _]].
  - intros f links link Hf. rewrite Hlookup in Hf.
    destruct (directory !! f) as [c|]; [|done].
    destruct (endswith f ".html"); [|done].
    injection Hf as <-.
    rewrite elem_of_filter, elem_of_difference, elem_of_list_to_set,
      elem_of_singleton.
    split.
    + intros (Hdom & Hin & Hne). split; [done|]. split; [done|]. eauto.
    + intros (Hdom & Hne & c' & Hc' & Hin). injection Hc' as <-. done.
Qed.

(** ** [iterate_pagerank]: what the loop keeps *)

(** A property of the states that every pass keeps holds of the state
    before the last pass; the result is the pass from that state, and it
    passed the convergence test. *)
Lemma iterate_loop_result (corpus : gmap string (gset string)) (d : Q)
    (P : gmap string Q → Prop) :
  (∀ cur new, dom cur = dom corpus → P cur →
     new_rank corpus d (len corpus) cur = Ok new → P new) →
  ∀ fuel cur res,
    dom cur = dom corpus → P cur →
    iterate_loop fuel corpus d (len corpus) cur = Some (Ok res) →
    ∃ prev,
      dom prev = dom corpus ∧ P prev
      ∧ new_rank corpus d (len corpus) prev = Ok res
      ∧ dom res = dom corpus
      ∧ (∀ p, p ∈ dom corpus → rank res p == recurrence corpus d prev p)
      ∧ converged threshold prev res.
Proof.
  intros Hkeep. induction fuel as [|fuel IH]; intros cur res Hdom HP Hres;
    [done|].
  destruct (iterate_loop_cases corpus d cur Hdom)
    as (new & Hnew & Hdom' & Hrec & [[Hconv Hstop]|[Hconv Hgo]]).
  - rewrite Hstop in Hres. injection Hres as <-. exists cur. done.
  - rewrite Hgo in Hres. apply (IH new res); [done| |done].
    by apply (Hkeep cur new).
Qed.

(** X4. [iterate_pagerank] never raises an exception: for every graph
    (empty, or with links that leave the graph), every damping factor and
    every number of passes, it either returns ranks or is still
    running. *)
Theorem iterate_pagerank_never_raises (corpus : gmap string (gset string))
    (d : Q) (fuel : nat) (e : exn) :
  iterate_pagerank fuel corpus d ≠ Some (Raise e).
Proof.
  destruct (initial_rank_ok corpus) as (cur & Hinit & Hdom & _).
  unfold iterate_pagerank. rewrite Hinit. clear Hinit.
  revert cur Hdom. induction fuel as [|fuel IH]; intros cur Hdom; [done|].
  destruct (iterate_loop_cases corpus d cur Hdom)
    as (new & _ & Hdom' & _ & [[_ Hstop]|[_ Hgo]]).
  - by rewrite Hstop.
  - rewrite Hgo. by apply IH.
Qed.

(** One pass keeps the total of the ranks: it is
    [(1 - d) + d * total currentRank]. *)
Lemma new_rank_total (corpus : gmap string (gset string)) (d : Q)
    (currentRank newRank : gmap string Q) :
  closed corpus →
  corpus ≠ ∅ →
  dom currentRank = dom corpus →
  dom newRank = dom corpus →
  (∀ p, p ∈ dom corpus →
     rank newRank p == recurrence corpus d currentRank p) →
  total newRank == (1 - d) + d * total currentRank.
Proof.
  intros Hclosed Hne Hdom Hdom' Hrec.
  assert (¬ len corpus == 0) as HN.
  { apply inject_nat_nonzero. by apply map_size_non_empty_iff. }
  rewrite (total_over newRank (keys corpus)), (total_over currentRank (keys corpus)).
  2,3: apply NoDup_keys || (intros k; by rewrite elem_of_keys, ?Hdom, ?Hdom').
  2,3: apply NoDup_keys || (intros k; by rewrite elem_of_keys, ?Hdom, ?Hdom').
  rewrite (Qsum_ext (rank newRank)
    (λ p, (1 - d) / len corpus
          + d * Qsum ((λ i, weight corpus i p * rank currentRank i)
                        <$> keys corpus))).
  2:{ intros p Hp. apply elem_of_keys in Hp. rewrite (Hrec p Hp).
      unfold recurrence.
      rewrite (Qsum_ext (λ i, contribution corpus currentRank i p)
                 (λ i, weight corpus i p * rank currentRank i)); [reflexivity|].
      intros i _. apply contribution_weight. }
  rewrite Qsum_plus, Qsum_const, length_keys. fold (len corpus).
  rewrite (Qsum_scale d
    (λ p, Qsum ((λ i, weight corpus i p * rank currentRank i)
                  <$> keys corpus))).
  rewrite (Qsum_swap (λ p i, weight corpus i p * rank currentRank i)).
  rewrite (Qsum_ext
    (λ i, Qsum ((λ p, weight corpus i p * rank currentRank i) <$> keys corpus))
    (rank currentRank)).
  - field. done.
  - intros i Hi. apply elem_of_keys in Hi.
    rewrite (Qsum_ext _ (λ p, rank currentRank i * weight corpus i p))
      by (intros; ring).
    rewrite Qsum_scale, (weight_column corpus i Hclosed Hi). ring.
Qed.

Lemma initial_rank_total (corpus : gmap string (gset string))
    (currentRank : gmap string Q) :
  corpus ≠ ∅ →
  dom currentRank = dom corpus →
  (∀ k, k ∈ dom corpus → currentRank !! k = Some (1 / len corpus)) →
  total currentRank == 1.
Proof.
  intros Hne Hdom Hcur.
  assert (¬ len corpus == 0) as HN.
  { apply inject_nat_nonzero. by apply map_size_non_empty_iff. }
  rewrite (total_over currentRank (keys corpus)).
  2:{ apply NoDup_keys. }
  2:{ intros k. by rewrite elem_of_keys, Hdom. }
  rewrite (Qsum_ext _ (λ _, 1 / len corpus)).
  - rewrite Qsum_const, length_keys. fold (len corpus). by field.
  - intros k Hk. apply elem_of_keys in Hk. unfold rank.
    rewrite (Hcur k Hk). reflexivity.
Qed.

Lemma initial_rank_nonneg (corpus : gmap string (gset string))
    (currentRank : gmap string Q) :
  dom currentRank = dom corpus →
  (∀ k, k ∈ dom corpus → currentRank !! k = Some (1 / len corpus)) →
  ∀ k, 0 <= rank currentRank k.
Proof.
  intros Hdom Hcur k. unfold rank.
  destruct (currentRank !! k) as [v|] eqn:Hv; simpl; [|lra].
  rewrite Hcur in Hv by (rewrite <- Hdom; by eapply elem_of_dom_2).
  injection Hv as <-. apply Qdiv_nonneg; [lra|apply inject_nat_nonneg].
Qed.

(** The state before the last pass of a run that returned: its ranks sum
    to 1, and they are not negative when the damping factor is in
    [0, 1]. *)
Lemma iterate_pagerank_last_pass (corpus : gmap string (gset string))
    (d : Q) (fuel : nat) (res : gmap string Q) :
  closed corpus →
  corpus ≠ ∅ →
  iterate_pagerank fuel corpus d = Some (Ok res) →
  ∃ prev,
    dom prev = dom corpus
    ∧ total prev == 1
    ∧ (0 <= d → d <= 1 → ∀ k, 0 <= rank prev k)
    ∧ dom res = dom corpus
    ∧ (∀ p, p ∈ dom corpus → rank res p == recurrence corpus d prev p)
    ∧ converged threshold prev res.
Proof.
  intros Hclosed Hne Hres.
  destruct (initial_rank_ok corpus) as (cur & Hinit & Hdom & Hcur).
  unfold iterate_pagerank in Hres. rewrite Hinit in Hres.
  destruct (iterate_loop_result corpus d
    (λ m, total m == 1 ∧ (0 <= d → d <= 1 → ∀ k, 0 <= rank m k))
    ) with (fuel := fuel) (cur := cur) (res := res)
    as (prev & Hdomp & [Htot Hpos] & _ & Hdomr & Hrec & Hconv); try done.
  - intros m new Hm [Htot Hpos] Hnew.
    destruct (new_rank_ok corpus d m Hm) as (new' & Hnew' & Hdom' & Hrec).
    rewrite Hnew in Hnew'. injection Hnew' as <-. split.
    + rewrite (new_rank_total corpus d m new) by done. rewrite Htot. ring.
    + intros Hd Hd1. apply (new_rank_nonneg corpus d m new); auto.
  - split.
    + by apply (initial_rank_total corpus).
    + intros _ _. by apply (initial_rank_nonneg corpus).
  - exists prev. done.
Qed.

(** X5. On a non-empty graph whose links stay inside the graph, the ranks
    that [iterate_pagerank] returns sum to 1, for every damping factor. *)
Theorem iterate_pagerank_sums_to_one (corpus : gmap string (gset string))
    (d : Q) (fuel : nat) (res : gmap string Q) :
  closed corpus →
  corpus ≠ ∅ →
  iterate_pagerank fuel corpus d = Some (Ok res) →
  total res == 1.
Proof.
  intros Hclosed Hne Hres.
  destruct (iterate_pagerank_last_pass corpus d fuel res Hclosed Hne Hres)
    as (prev & Hdomp & Htot & _ & Hdomr & Hrec & _).
  rewrite (new_rank_total corpus d prev res) by done. rewrite Htot. ring.
Qed.

Lemma iterate_pagerank_sums_to_one_witness :
  total {["a" := 3990000 # 8000000; "b" := 8020000 # 16000000]} == 1.
Proof.
  apply (iterate_pagerank_sums_to_one chain2 0.005 1).
  - apply (bool_decide_unpack _). vm_compute. exact I.
  - apply (bool_decide_unpack _). vm_compute. exact I.
  - vm_compute. reflexivity.
Defined.

(** X6. For a damping factor [d] in [0, 1], every rank that
    [iterate_pagerank] returns lies between the random-jump share
    [(1 - d) / N] and 1. *)
Theorem iterate_pagerank_rank_bounds (corpus : gmap string (gset string))
    (d : Q) (fuel : nat) (res : gmap string Q) (p : string) :
  closed corpus →
  corpus ≠ ∅ →
  0 <= d → d <= 1 →
  iterate_pagerank fuel corpus d = Some (Ok res) →
  p ∈ dom corpus →
  (1 - d) / len corpus <= rank res p ∧ rank res p <= 1.
Proof.
  intros Hclosed Hne Hd Hd1 Hres Hp.
  destruct (iterate_pagerank_last_pass corpus d fuel res Hclosed Hne Hres)
    as (prev & Hdomp & Htot & Hpos & Hdomr & Hrec & _).
  specialize (Hpos Hd Hd1).
  pose proof (new_rank_nonneg corpus d prev res Hd Hd1 Hdomr Hrec Hpos)
    as Hposr.
  split.
  - rewrite (Hrec p Hp). unfold recurrence.
    assert (0 <= Qsum ((λ i, contribution corpus prev i p) <$> keys corpus))
      as Hsum.
    { apply Qsum_nonneg. intros i _. rewrite contribution_weight.
      apply Qmult_le_0_compat; [apply weight_nonneg|apply Hpos]. }
    pose proof (Qmult_le_0_compat d _ Hd Hsum). lra.
  - assert (total res == 1) as Htr.
    { rewrite (new_rank_total corpus d prev res) by done. rewrite Htot. ring. }
    pose proof (rank_le_total res p Hposr). lra.
Qed.

Lemma iterate_pagerank_rank_bounds_witness :
  (1 - 0.005) / len chain2
    <= rank {["a" := 3990000 # 8000000; "b" := 8020000 # 16000000]} "a"
  ∧ rank {["a" := 3990000 # 8000000; "b" := 8020000 # 16000000]} "a" <= 1.
Proof.
  apply (iterate_pagerank_rank_bounds chain2 0.005 1).
  - apply (bool_decide_unpack _). vm_compute. exact I.
  - apply (bool_decide_unpack _). vm_compute. exact I.
  - lra.
  - lra.
  - vm_compute. reflexivity.
  - apply (bool_decide_unpack _). vm_compute. exact I.
Defined.

(** ** [iterate_pagerank]: how fast it converges *)

(** X7. One pass of the loop is a contraction: for a damping factor
    [d >= 0] and two states over the nodes of the graph, the passes from
    the two states differ, summed over the nodes, by at most [d] times
    what the states differ by. *)
Theorem new_rank_contracts (corpus : gmap string (gset string)) (d : Q)
    (m1 m2 : gmap string Q) :
  closed corpus →
  0 <= d →
  dom m1 = dom corpus →
  dom m2 = dom corpus →
  ∃ new1 new2,
    new_rank corpus d (len corpus) m1 = Ok new1
    ∧ new_rank corpus d (len corpus) m2 = Ok new2
    ∧ distance corpus new1 new2 <= d * distance corpus m1 m2.
Proof.
  intros Hclosed Hd Hdom1 Hdom2.
  destruct (new_rank_ok corpus d m1 Hdom1) as (new1 & Hnew1 & _ & Hrec1).
  destruct (new_rank_ok corpus d m2 Hdom2) as (new2 & Hnew2 & _ & Hrec2).
  exists new1, new2. split; [done|]. split; [done|].
  by apply (recurrence_contracts corpus d m1 m2).
Qed.

Lemma new_rank_contracts_witness :
  ∃ new1 new2,
    new_rank chain2 DAMPING (len chain2) {["a" := 1 # 2; "b" := 1 # 2]}
      = Ok new1
    ∧ new_rank chain2 DAMPING (len chain2) {["a" := 1; "b" := 0]} = Ok new2
    ∧ distance chain2 new1 new2
      <= DAMPING * distance chain2 {["a" := 1 # 2; "b" := 1 # 2]}
                     {["a" := 1; "b" := 0]}.
Proof.
  apply (new_rank_contracts chain2 DAMPING).
  - apply (bool_decide_unpack _). vm_compute. exact I.
  - unfold DAMPING. lra.
  - vm_compute. reflexivity.
  - vm_compute. reflexivity.
Defined.

(** Two distributions without negative values are no further apart than
    their totals taken together. *)
Lemma distance_le_totals (corpus : gmap string (gset string))
    (m1 m2 : gmap string Q) :
  dom m1 = dom corpus →
  dom m2 = dom corpus →
  (∀ k, 0 <= rank m1 k) →
  (∀ k, 0 <= rank m2 k) →
  distance corpus m1 m2 <= total m1 + total m2.
Proof.
  intros Hdom1 Hdom2 Hpos1 Hpos2.
  rewrite (total_over m1 (keys corpus)), (total_over m2 (keys corpus)).
  2,3: apply NoDup_keys || (intros k; by rewrite elem_of_keys, ?Hdom1, ?Hdom2).
  2,3: apply NoDup_keys || (intros k; by rewrite elem_of_keys, ?Hdom1, ?Hdom2).
  rewrite <- Qsum_plus. unfold distance. apply Qsum_le. intros p _.
  specialize (Hpos1 p). specialize (Hpos2 p).
  apply Qabs_case; intros; lra.
Qed.

(** If [d^k] times the distance covered by the next pass is below the
    threshold, [k + 1] passes are enough. *)
Lemma iterate_loop_within (corpus : gmap string (gset string)) (d : Q) :
  closed corpus →
  0 <= d →
  ∀ k currentRank newRank,
    dom currentRank = dom corpus →
    new_rank corpus d (len corpus) currentRank = Ok newRank →
    Qpow d k * distance corpus currentRank newRank < threshold →
    ∃ res,
      iterate_loop (S k) corpus d (len corpus) currentRank = Some (Ok res).
Proof.
  intros Hclosed Hd.
  induction k as [|k IH]; intros cur new Hdom Hnew Hsmall.
  - destruct (iterate_loop_round corpus d cur Hdom)
      as (new' & Hnew' & Hdom' & Hrec & Hstop & _).
    rewrite Hnew in Hnew'. injection Hnew' as <-.
    exists new. apply Hstop. intros key Hkey. rewrite Hdom in Hkey.
    pose proof (difference_le_distance corpus cur new key Hkey).
    simpl in Hsmall. lra.
  - destruct (iterate_loop_cases corpus d cur Hdom)
      as (new' & Hnew' & Hdom' & Hrec & [[_ Hstop]|[_ Hgo]]);
      rewrite Hnew in Hnew'; injection Hnew' as <-.
    + exists new. apply Hstop.
    + destruct (new_rank_ok corpus d new Hdom') as (new2 & Hnew2 & _ & Hrec2).
      destruct (IH new new2 Hdom' Hnew2) as (res & Hres).
      { pose proof (recurrence_contracts corpus d cur new new new2
                      Hclosed Hd Hrec Hrec2) as Hcontr.
        pose proof (Qpow_nonneg d k Hd) as HP.
        assert (Qpow d k * distance corpus new new2
                <= Qpow d k * (d * distance corpus cur new)) as Hle
          by (by apply Qmult_le_left).
        cbn [Qpow] in Hsmall.
        assert (d * Qpow d k * distance corpus cur new
                == Qpow d k * (d * distance corpus cur new)) as Heq by ring.
        lra. }
      exists res. by rewrite Hgo.
Qed.

(** [k + 1] passes are enough as soon as [2 * d^k] is below the
    threshold. *)
Lemma iterate_pagerank_returns_within (corpus : gmap string (gset string))
    (d : Q) (k : nat) :
  closed corpus →
  corpus ≠ ∅ →
  0 <= d → d <= 1 →
  Qpow d k * 2 < threshold →
  ∃ res, iterate_pagerank (S k) corpus d = Some (Ok res).
Proof.
  intros Hclosed Hne Hd Hd1 Hk.
  destruct (initial_rank_ok corpus) as (cur & Hinit & Hdom & Hcur).
  destruct (new_rank_ok corpus d cur Hdom) as (new & Hnew & Hdom' & Hrec).
  pose proof (initial_rank_total corpus cur Hne Hdom Hcur) as Htot.
  pose proof (initial_rank_nonneg corpus cur Hdom Hcur) as Hpos.
  pose proof (new_rank_nonneg corpus d cur new Hd Hd1 Hdom' Hrec Hpos)
    as Hpos'.
  pose proof (new_rank_total corpus d cur new Hclosed Hne Hdom Hdom' Hrec)
    as Htot'.
  pose proof (distance_le_totals corpus cur new Hdom Hdom' Hpos Hpos')
    as Hdist.
  unfold iterate_pagerank. rewrite Hinit.
  apply (iterate_loop_within corpus d Hclosed Hd k cur new Hdom Hnew).
  pose proof (Qpow_nonneg d k Hd) as HP.
  assert (distance corpus cur new <= 2) as Hle.
  { rewrite Htot', Htot in Hdist.
    assert (1 + (1 - d + d * 1) == 2) as Heq by ring. lra. }
  assert (Qpow d k * distance corpus cur new <= Qpow d k * 2)
    by (by apply Qmult_le_left).
  lra.
Qed.



(** X9. The returned ranks are close to a fixed point of the recurrence:
    for [d >= 0], one more pass from them moves the ranks, summed over
    the [N] nodes, by at most [d * N * 0.0015]. *)
Theorem iterate_pagerank_near_fixed_point
    (corpus : gmap string (gset string)) (d : Q) (fuel : nat)
    (res : gmap string Q) :
  closed corpus →
  corpus ≠ ∅ →
  0 <= d →
  iterate_pagerank fuel corpus d = Some (Ok res) →
  ∃ next,
    new_rank corpus d (len corpus) res = Ok next
    ∧ distance corpus res next <= d * (len corpus * threshold).
Proof.
  intros Hclosed Hne Hd Hres.
  destruct (iterate_pagerank_last_pass corpus d fuel res Hclosed Hne Hres)
    as (prev & Hdomp & _ & _ & Hdomr & Hrec & Hconv).
  destruct (new_rank_ok corpus d res Hdomr) as (next & Hnext & _ & Hrec').
  exists next. split; [done|].
  eapply Qle_trans.
  { apply (recurrence_contracts corpus d prev res res next); done. }
  apply Qmult_le_left; [done|]. unfold distance.
  eapply Qle_trans.
  { apply (Qsum_le _ (λ _, threshold)). intros p Hp.
    apply Qlt_le_weak, Hconv. rewrite Hdomp. by apply elem_of_keys. }
  rewrite Qsum_const, length_keys. fold (len corpus). apply Qle_refl.
Qed.

Lemma iterate_pagerank_near_fixed_point_witness :
  ∃ next,
    new_rank chain2 0.005 (len chain2)
      {["a" := 3990000 # 8000000; "b" := 8020000 # 16000000]} = Ok next
    ∧ distance chain2
        {["a" := 3990000 # 8000000; "b" := 8020000 # 16000000]} next
      <= 0.005 * (len chain2 * threshold).
Proof.
  apply (iterate_pagerank_near_fixed_point chain2 0.005 1).
  - apply (bool_decide_unpack _). vm_compute. exact I.
  - apply (bool_decide_unpack _). vm_compute. exact I.
  - lra.
  - vm_compute. reflexivity.
Defined.

(** ** [iterate_pagerank]: particular graphs and pages *)

(** X10. When no page of a non-empty graph has a link, [iterate_pagerank]
    returns after its first pass, for every damping factor, and in exact
    arithmetic (numbers are rationals here; the program's floating-point
    values agree up to rounding) gives every page the rank [1/N]. *)
Theorem iterate_pagerank_no_links (corpus : gmap string (gset string))
    (d : Q) (fuel : nat) :
  corpus ≠ ∅ →
  map_Forall (λ _ links, links = ∅) corpus →
  ∃ res,
    iterate_pagerank (S fuel) corpus d = Some (Ok res)
    ∧ dom res = dom corpus
    ∧ ∀ p, p ∈ dom corpus → rank res p == 1 / len corpus.
Proof.
  intros Hne Hsinks.
  assert (¬ len corpus == 0) as HN.
  { apply inject_nat_nonzero. by apply map_size_non_empty_iff. }
  destruct (initial_rank_ok corpus) as (cur & Hinit & Hdom & Hcur).
  destruct (iterate_loop_round corpus d cur Hdom)
    as (new & _ & Hdom' & Hrec & Hstop & _).
  assert (∀ p, p ∈ dom corpus → rank cur p == 1 / len corpus) as Hcur'.
  { intros p Hp. unfold rank. rewrite (Hcur p Hp). reflexivity. }
  assert (∀ p, p ∈ dom corpus → rank new p == 1 / len corpus) as Hnew.
  { intros p Hp. rewrite (Hrec p Hp). unfold recurrence.
    rewrite (Qsum_ext _ (λ _, 1 / len corpus / len corpus)).
    - rewrite Qsum_const, length_keys. fold (len corpus). by field.
    - intros i Hi. apply elem_of_keys in Hi as Hi'.
      apply elem_of_dom in Hi' as [links Hlinks].
      pose proof (Hsinks i links Hlinks) as Hempty. simpl in Hempty. subst links.
      unfold contribution. rewrite Hlinks.
      change (default ∅ (Some (∅ : gset string))) with (∅ : gset string).
      cbn zeta.
      rewrite bool_decide_eq_false_2 by apply not_elem_of_empty.
      rewrite bool_decide_eq_true_2 by done.
      apply elem_of_keys in Hi. by rewrite (Hcur' i Hi). }
  exists new. split; [|done].
  unfold iterate_pagerank. rewrite Hinit. apply Hstop.
  intros p Hp. rewrite Hdom in Hp. rewrite (Hcur' p Hp), (Hnew p Hp).
  assert (1 / len corpus - 1 / len corpus == 0) as -> by ring.
  reflexivity.
Qed.

Lemma iterate_pagerank_no_links_witness :
  ∃ res,
    iterate_pagerank 1 three_sinks DAMPING = Some (Ok res)
    ∧ dom res = dom three_sinks
    ∧ ∀ p, p ∈ dom three_sinks → rank res p == 1 / len three_sinks.
Proof.
  apply (iterate_pagerank_no_links three_sinks DAMPING 0).
  - apply (bool_decide_unpack _). vm_compute. exact I.
  - apply (bool_decide_unpack _). vm_compute. exact I.
Defined.

(** X11. In a graph without sinks, a page that no page links to gets
    exactly the random-jump share [(1 - d) / N] in the ranks that
    [iterate_pagerank] returns. *)
Theorem iterate_pagerank_no_inlinks (corpus : gmap string (gset string))
    (d : Q) (fuel : nat) (res : gmap string Q) (p : string) :
  map_Forall (λ _ links, links ≠ ∅ ∧ p ∉ links) corpus →
  p ∈ dom corpus →
  iterate_pagerank fuel corpus d = Some (Ok res) →
  rank res p == (1 - d) / len corpus.
Proof.
  intros Hlinks Hp Hres.
  destruct (initial_rank_ok corpus) as (cur & Hinit & Hdom & _).
  unfold iterate_pagerank in Hres. rewrite Hinit in Hres.
  destruct (iterate_loop_result corpus d (λ _, True) ltac:(done)
              fuel cur res Hdom I Hres)
    as (prev & _ & _ & _ & _ & Hrec & _).
  rewrite (Hrec p Hp). unfold recurrence.
  rewrite (Qsum_ext _ (λ _, 0)).
  - rewrite Qsum_const. ring.
  - intros i Hi. apply elem_of_keys, elem_of_dom in Hi as [links Hi].
    destruct (Hlinks i links Hi) as [Hne Hnin].
    unfold contribution. rewrite Hi.
    change (default ∅ (Some links)) with links. cbn zeta.
    by rewrite !bool_decide_eq_false_2.
Qed.

Lemma iterate_pagerank_no_inlinks_witness :
  rank {["1.html" := 999000 # 3000000; "2.html" := 18009000 # 54000000;
         "3.html" := 18009000 # 54000000]} "1.html"
  == (1 - 0.001) / len sample_corpus.
Proof.
  apply (iterate_pagerank_no_inlinks sample_corpus 0.001 1).
  - apply (bool_decide_unpack _). vm_compute. exact I.
  - apply (bool_decide_unpack _). vm_compute. exact I.
  - vm_compute. reflexivity.
Defined.

(** ** [sample_pagerank]: the values are visit frequencies *)

(** The counters of the sampling loop stay whole numbers. *)
Lemma sample_loop_integral (corpus : gmap string (gset string)) (d : Q)
    (us : Z → Q) (l : list Z) (nextSample : string)
    (output : gmap string Q) (st : string * gmap string Q) :
  closed corpus →
  nextSample ∈ dom corpus →
  dom output = dom corpus →
  (∀ k, ∃ c : nat, rank output k == inject_Z (Z.of_nat c)) →
  for_each l (λ st i, sample_step corpus d (us i) st) (nextSample, output)
    = Ok st →
  ∀ k, ∃ c : nat, rank st.2 k == inject_Z (Z.of_nat c).
Proof.
  intros Hclosed. revert nextSample output.
  induction l as [|i l IH]; intros nextSample output Hnext Hdom Hint Hst.
  - injection Hst as <-. done.
  - destruct (sample_step_ok corpus d (us i) nextSample output
                Hclosed Hnext Hdom) as (next & c & Hstep & Hc & Hin).
    cbn [for_each] in Hst. rewrite Hstep in Hst. cbn [bind] in Hst.
    apply (IH next (<[nextSample := c + 1]> output)); [done| | |done].
    + rewrite dom_insert_L, Hdom.
      apply set_eq. intros k. rewrite elem_of_union, elem_of_singleton.
      split; [intros [->|?]; done|auto].
    + intros k. rewrite rank_insert. destruct (decide (nextSample = k)).
      * destruct (Hint nextSample) as [c0 Hc0]. exists (S c0).
        unfold rank in Hc0. rewrite Hc in Hc0. simpl in Hc0.
        rewrite Hc0, Nat2Z.inj_succ, <- Z.add_1_r, inject_Z_plus.
        reflexivity.
      * apply Hint.
Qed.

(** X12. For every non-empty graph whose links stay inside the graph and
    every [n >= 1], whatever the random draws, each value that
    [sample_pagerank] returns is a visit frequency: a whole number of
    visits, at most [n - 1], divided by [n]. *)
Theorem sample_pagerank_frequencies (corpus : gmap string (gset string))
    (d : Q) (n : Z) (r : nat) (us : Z → Q) :
  closed corpus →
  corpus ≠ ∅ →
  (1 <= n)%Z →
  ∃ output,
    sample_pagerank corpus d n r us = Ok output
    ∧ ∀ key, key ∈ dom corpus →
        ∃ visits : nat,
          (Z.of_nat visits <= n - 1)%Z
          ∧ rank output key == inject_Z (Z.of_nat visits) / inject_Z n.
Proof.
  intros Hclosed Hne Hn. unfold sample_pagerank.
  destruct (random_choice_ok r (keys corpus) (keys_nonempty corpus Hne))
    as (first & -> & Hfirst).
  cbn [bind]. apply elem_of_keys in Hfirst.
  destruct (for_each_fill (Ok 0) 0 (keys corpus) ∅) as (zeros & Hz & Hzeros);
    [done|].
  cbn [bind] in Hz. rewrite Hz. cbn [bind].
  assert (dom zeros = dom corpus) as Hdom.
  { apply set_eq. intros k. rewrite elem_of_dom, Hzeros.
    destruct (decide (k ∈ keys corpus)) as [Hin|Hnin].
    - apply elem_of_keys in Hin. split; eauto.
    - rewrite elem_of_keys in Hnin. rewrite lookup_empty.
      split; [by intros [? ?]|done]. }
  assert (∀ k, rank zeros k = 0) as Hrank.
  { intros k. unfold rank. rewrite Hzeros.
    destruct (decide (k ∈ keys corpus)); [done|]. by rewrite lookup_empty. }
  destruct (sample_loop_ok corpus d us (range 1 n) first zeros)
    as (st & Hloop & _ & Hst2 & Htot & Hpos); try done.
  { intros k. rewrite Hrank. lra. }
  pose proof (sample_loop_integral corpus d us (range 1 n) first zeros st
                Hclosed Hfirst Hdom) as Hint.
  rewrite Hloop. cbn [bind].
  rewrite divide_loop_ok by (apply inject_Z_nonzero; lia).
  eexists. split; [done|]. intros key Hkey.
  destruct (Hint ltac:(intros k; exists 0%nat; by rewrite Hrank) Hloop key)
    as [visits Hvisits].
  exists visits. split.
  - pose proof (rank_le_total st.2 key Hpos) as Hle.
    rewrite Htot, length_range, total_zero, Hvisits in Hle.
    2:{ intros k v Hk. specialize (Hrank k). unfold rank in Hrank.
        rewrite Hk in Hrank. simpl in Hrank. by rewrite Hrank. }
    rewrite Qplus_0_l, <- Zle_Qle in Hle. lia.
  - rewrite rank_fmap by (by rewrite Hst2). by rewrite Hvisits.
Qed.

Lemma sample_pagerank_frequencies_witness :
  ∃ output,
    sample_pagerank sample_corpus DAMPING 5 0 (λ _, 1 # 2) = Ok output
    ∧ ∀ key, key ∈ dom sample_corpus →
        ∃ visits : nat,
          (Z.of_nat visits <= 5 - 1)%Z
          ∧ rank output key == inject_Z (Z.of_nat visits) / inject_Z 5.
Proof.
  apply (sample_pagerank_frequencies sample_corpus DAMPING 5 0 (λ _, 1 # 2)).
  - apply (bool_decide_unpack _). vm_compute. exact I.
  - apply (bool_decide_unpack _). vm_compute. exact I.
  - lia.
Defined.

(** ** From the directory to the ranks *)

(** The graph [crawl] returns satisfies the invariant the estimators rely
    on: its links stay inside the graph. *)
Lemma crawl_closed (findall : string → list string)
    (directory : gmap string string) :
  ∃ corpus,
    crawl findall directory = Ok corpus
    ∧ closed corpus
    ∧ ∀ f, f ∈ dom corpus ↔ f ∈ dom directory ∧ endswith f ".html" = true.
Proof.
  destruct (crawl_lookup findall directory) as (pages & Hcrawl & Hlookup).
  exists pages. split; [done|]. split.
  - intros f links Hf. simpl. rewrite Hlookup in Hf.
    destruct (directory !! f) as [c|]; [|done].
    destruct (endswith f ".html"); [|done].
    injection Hf as <-. intros link Hlink.
    by apply elem_of_filter in Hlink as [Hdom _].
  - intros f. rewrite !elem_of_dom, Hlookup.
    destruct (directory !! f) as [c|].
    + destruct (endswith f ".html").
      * split; eauto.
      * split; [by intros [? ?]|by intros [_ ?]].
    + split; [by intros [? ?]|by intros [[? ?] _]].
Qed.

(** X13. The calls of [main], on a directory that holds at least one file
    whose name ends in [.html]: [crawl] returns the graph of those files,
    [sample_pagerank] with the program's constants returns values over
    these pages that sum to 9999/10000, whatever the random draws, and
    [iterate_pagerank] returns within 46 passes ranks over these pages
    that sum to 1. *)
Theorem crawl_then_rank (findall : string → list string)
    (directory : gmap string string) (file contents : string) :
  directory !! file = Some contents →
  endswith file ".html" = true →
  ∃ corpus,
    crawl findall directory = Ok corpus
    ∧ (∀ f, f ∈ dom corpus ↔ f ∈ dom directory ∧ endswith f ".html" = true)
    ∧ (∀ r us,
         ∃ ranks, sample_pagerank corpus DAMPING SAMPLES r us = Ok ranks
                ∧ dom ranks = dom corpus
                ∧ total ranks == 9999 / 10000)
    ∧ ∃ ranks, iterate_pagerank 46 corpus DAMPING = Some (Ok ranks)
             ∧ dom ranks = dom corpus
             ∧ total ranks == 1.
Proof.
  intros Hfile Hhtml.
  destruct (crawl_closed findall directory)
    as (corpus & Hcrawl & Hclosed & Hkeys).
  assert (corpus ≠ ∅) as Hne.
  { intros ->. assert (file ∈ dom (∅ : gmap string (gset string))) as Hin.
    { apply Hkeys. split; [by eapply elem_of_dom_2|done]. }
    by rewrite dom_empty_L in Hin. }
  exists corpus. split; [done|]. split; [done|]. split.
  - intros r us.
    destruct (sample_pagerank_result corpus DAMPING SAMPLES r us
                Hclosed Hne ltac:(done))
      as (counts & Hsp & Hdom & Htot & _).
    eexists. split; [done|]. split; [by rewrite dom_fmap_L|].
    rewrite total_div, Htot. reflexivity.
  - destruct (iterate_pagerank_returns_within corpus DAMPING 45 Hclosed Hne)
      as (ranks & Hranks).
    { unfold DAMPING. lra. }
    { unfold DAMPING. lra. }
    { vm_compute. reflexivity. }
    exists ranks. split; [done|].
    destruct (iterate_pagerank_last_pass corpus DAMPING 46 ranks
                Hclosed Hne Hranks)
      as (prev & Hdomp & Htot & _ & Hdomr & Hrec & _).
    split; [done|].
    rewrite (new_rank_total corpus DAMPING prev ranks) by done.
    rewrite Htot. ring.
Qed.

Lemma crawl_then_rank_witness :
  ∃ corpus,
    crawl whole_text site = Ok corpus
    ∧ (∀ f, f ∈ dom corpus ↔ f ∈ dom site ∧ endswith f ".html" = true)
    ∧ (∀ r us,
         ∃ ranks, sample_pagerank corpus DAMPING SAMPLES r us = Ok ranks
                ∧ dom ranks = dom corpus
                ∧ total ranks == 9999 / 10000)
    ∧ ∃ ranks, iterate_pagerank 46 corpus DAMPING = Some (Ok ranks)
             ∧ dom ranks = dom corpus
             ∧ total ranks == 1.
Proof.
  apply (crawl_then_rank whole_text site "1.html" "2.html").
  - reflexivity.
  - reflexivity.
Defined.

(** X14. The calls of [main], on a directory without any file whose name
    ends in [.html] (an empty directory, say): [crawl] returns the empty
    graph and the call of [sample_pagerank] that follows raises
    [IndexError]. *)
Theorem crawl_without_pages (findall : string → list string)
    (directory : gmap string string) (r : nat) (us : Z → Q) :
  map_Forall (λ f _, endswith f ".html" = false) directory →
  crawl findall directory = Ok ∅
  ∧ (corpus <- crawl findall directory ;;
     sample_pagerank corpus DAMPING SAMPLES r us) = Raise IndexError.
Proof.
  intros Hnone.
  destruct (crawl_lookup findall directory) as (pages & Hcrawl & Hlookup).
  assert (pages = ∅) as ->.
  { apply map_eq. intros f. rewrite Hlookup, lookup_empty.
    destruct (directory !! f) as [c|] eqn:Hf; [|done].
    by rewrite (Hnone f c Hf). }
  split; [done|]. rewrite Hcrawl. cbn [bind].
  unfold sample_pagerank, keys. by rewrite map_to_list_empty.
Qed.

Lemma crawl_without_pages_witness :
  crawl whole_text no_pages = Ok ∅
  ∧ (corpus <- crawl whole_text no_pages ;;
     sample_pagerank corpus DAMPING SAMPLES 0 (λ _, 1 # 2)) = Raise IndexError.
Proof.
  apply (crawl_without_pages whole_text no_pages 0 (λ _, 1 # 2)).
  apply (bool_decide_unpack _). vm_compute. exact I.
Defined.

(** ** [sample_pagerank] on a graph with a link that leaves the graph *)

Lemma range_cons (start stop : Z) :
  (start < stop)%Z → range start stop = start :: range (start + 1) stop.
Proof.
  intros Hlt. unfold range.
  replace (Z.to_nat (stop - start)) with (S (Z.to_nat (stop - (start + 1))))
    by lia.
  cbn [seq fmap list_fmap]. f_equal; [lia|].
  rewrite <- fmap_S_seq, <- list_fmap_compose.
  apply list_fmap_ext. intros _ i _. simpl. lia.
Qed.

(** X15. When the page drawn first links to a page that is not a key of
    the graph and [n >= 2], [sample_pagerank] raises [KeyError]: the
    first round asks [transition_model] for the distribution of that
    page. *)
Theorem sample_pagerank_dangling_start (corpus : gmap string (gset string))
    (d : Q) (n : Z) (r : nat) (us : Z → Q) (first link : string)
    (links : gset string) :
  random_choice r (keys corpus) = Ok first →
  corpus !! first = Some links →
  link ∈ links →
  link ∉ dom corpus →
  (2 <= n)%Z →
  sample_pagerank corpus d n r us = Raise KeyError.
Proof.
  intros Hfirst Hlinks Hlink Hmiss Hn. unfold sample_pagerank.
  rewrite Hfirst. cbn [bind].
  destruct (for_each_fill (Ok 0) 0 (keys corpus) ∅) as (zeros & Hz & Hzeros);
    [done|].
  cbn [bind] in Hz. rewrite Hz. cbn [bind].
  rewrite (range_cons 1 n) by lia. cbn [for_each].
  assert (sample_step corpus d (us 1%Z) (first, zeros) = Raise KeyError)
    as ->; [|done].
  unfold sample_step. cbn [fst snd].
  rewrite (getitem_ok zeros first 0).
  2:{ rewrite Hzeros, decide_True; [done|].
      by apply elem_of_keys, (elem_of_dom_2 _ _ links). }
  cbn [bind].
  by rewrite (transition_model_missing_link corpus first link d links).
Qed.

Lemma sample_pagerank_dangling_start_witness :
  sample_pagerank dangling DAMPING 2 0 (λ _, 1 # 2) = Raise KeyError.
Proof.
  apply (sample_pagerank_dangling_start dangling DAMPING 2 0 (λ _, 1 # 2)
           "a" "z" {["b"; "z"]}).
  - vm_compute. reflexivity.
  - reflexivity.
  - apply (bool_decide_unpack _). vm_compute. exact I.
  - apply (bool_decide_unpack _). vm_compute. exact I.
  - lia.
Defined.

(** ** Determinism of [iterate_pagerank] *)









